(** * s3-content-type-fixer: the worker, the enumerator and the coordinator

    A shallow embedding of [s3_content_type_fixer.py].  The remote bucket,
    the two output streams and the log of calls made on the bucket are one
    explicit state, threaded through the worker by a small state monad.
    The work queue and the pool of worker processes are a transition
    system whose steps are chosen by a scheduler. *)

From stdpp Require Import gmap strings list fin_maps.
From Stdlib Require Import ZArith Ascii.

Local Open Scope string_scope.

(** ** Python values the script relies on *)

Module Py.

(** [s.endswith(suffix)] *)
Definition endswith (s suffix : string) : bool :=
  let n := String.length s in
  let m := String.length suffix in
  (m <=? n)%nat && String.eqb (String.substring (n - m) m s) suffix.

(** Truth value of a value that is a [str] or [None]: [None] and the
    empty string are false. *)
Definition truthy (v : option string) : bool :=
  match v with
  | None => false
  | Some s => negb (String.eqb s "")
  end.

(** ["%s" % v] for a value that is a [str] or [None]. *)
Definition str (v : option string) : string :=
  match v with
  | None => "None"
  | Some s => s
  end.

(** The characters of a value known to be a [str]. *)
Definition chars (v : option string) : string := default "" v.

(** Truth value of an [int]. *)
Definition truthy_int (z : Z) : bool := negb (z =? 0)%Z.

(** [xrange(n)] runs its body [max n 0] times. *)
Definition xrange_len (n : Z) : nat := Z.to_nat n.

End Py.

(** ** The bucket as the script sees it *)

(** What the script reads of one stored object. *)
Record S3Object := mkObject {
  content_type : option string;
  content_disposition : option string;
  metadata : gmap string string
}.

(** The keyword arguments of [key.copy_from(...)]. *)
Record CopyCall := mkCopy {
  Bucket : string;
  Key : string;
  CopySource : string;
  MetadataDirective : string;
  Metadata : gmap string string;
  ContentType : string
}.

Inductive Attr := AContentType | AMetadata | AContentDisposition.

(** Every use the worker makes of the bucket, in program order. *)
Inductive StoreOp :=
| OpObject (key_name : string)
| OpGet (key_name : string) (a : Attr)
| OpCopyFrom (c : CopyCall).

Definition is_copy (op : StoreOp) : bool :=
  match op with OpCopyFrom _ => true | _ => false end.

Module S3.

(** The service side of a copy with [MetadataDirective="REPLACE"]: the
    user metadata and the content type of the destination become the ones
    of the request.  The script never passes [ContentDisposition]; whether
    the service then carries the header over is left open by [keep]. *)
Definition replaced (keep : bool) (c : CopyCall) (o : S3Object) : S3Object :=
  {| content_type := Some (ContentType c);
     content_disposition := if keep then content_disposition o else None;
     metadata := Metadata c |}.

(** A copy of an object onto itself, the only copy the script issues. *)
Definition copy_from (keep : bool) (c : CopyCall)
    (objects : gmap string S3Object) : gmap string S3Object :=
  alter (replaced keep c) (Key c) objects.

End S3.

(** The handle returned by [bucket.Object(key_name)]: its two identifiers
    and the attributes it has loaded, none until one is first read. *)
Record ObjectHandle := mkHandle {
  bucket_name : string;
  key : string;
  loaded : option S3Object
}.

(** Truth value of a handle, as [if not key] tests it: the class of the
    handle defines no truth method, so every handle is true. *)
Definition handle_truth (h : ObjectHandle) : bool := true.

(** What an attribute read can raise: the error of the service for a key
    the bucket does not hold. *)
Inductive Exn := ClientError (key_name : string).

Inductive Result (A : Type) :=
| Returns (a : A)
| Raises (e : Exn).

Arguments Returns {A} a.
Arguments Raises {A} e.

(** ** State and effects of a worker *)

(** The bucket, the lines the script has printed on standard output and
    on the error stream, and the calls made on the bucket.  What the
    runtime of a worker process writes about an exception that ends the
    process is not among the lines. *)
Record World := mkWorld {
  w_bucket : string;
  w_objects : gmap string S3Object;
  w_stdout : list string;
  w_stderr : list string;
  w_calls : list StoreOp
}.

Definition M (A : Type) : Type := World → A * World.

Definition ret {A} (a : A) : M A := λ w, (a, w).

Definition bind {A B} (m : M A) (f : A → M B) : M B :=
  λ w, let (a, w') := m w in f a w'.

#[global] Instance M_ret : MRet M := @ret.
#[global] Instance M_bind : MBind M := λ A B f m, bind m f.

Definition exec {A} (m : M A) (w : World) : World := snd (m w).

Definition log (op : StoreOp) : M unit :=
  λ w, (tt, mkWorld (w_bucket w) (w_objects w) (w_stdout w) (w_stderr w)
                    (w_calls w ++ [op])).

(** [print line] *)
Definition print (line : string) : M unit :=
  λ w, (tt, mkWorld (w_bucket w) (w_objects w) (w_stdout w ++ [line])
                    (w_stderr w) (w_calls w)).

(** [print >> sys.stderr, line] *)
Definition print_stderr (line : string) : M unit :=
  λ w, (tt, mkWorld (w_bucket w) (w_objects w) (w_stdout w)
                    (w_stderr w ++ [line]) (w_calls w)).

(** [bucket.Object(key_name)]: no request is sent, nothing is loaded. *)
Definition Object (key_name : string) : M ObjectHandle :=
  λ w, (mkHandle (w_bucket w) key_name None,
        mkWorld (w_bucket w) (w_objects w) (w_stdout w) (w_stderr w)
                (w_calls w ++ [OpObject key_name])).

(** Reading an attribute of a handle that has loaded its attributes. *)
Definition get_attr {A} (h : ObjectHandle) (a : Attr) (v : A) : M A :=
  log (OpGet (key h) a) ;; ret v.

(** Code that may raise: the effects up to the exception stay. *)
Definition MX (A : Type) : Type := World → Result A * World.

Definition retx {A} (a : A) : MX A := λ w, (Returns a, w).

Definition bindx {A B} (m : MX A) (f : A → MX B) : MX B :=
  λ w, match m w with
       | (Returns a, w') => f a w'
       | (Raises e, w') => (Raises e, w')
       end.

#[global] Instance MX_ret : MRet MX := @retx.
#[global] Instance MX_bind : MBind MX := λ A B f m, bindx m f.

Definition lift {A} (m : M A) : MX A :=
  λ w, let (a, w') := m w in (Returns a, w').

(** Reading an attribute of a handle that may not have loaded yet: the
    handle then fetches the object under its key, and the read raises when
    the bucket holds none.  The loaded handle and its attributes are
    returned. *)
Definition fetch (h : ObjectHandle) (a : Attr) : MX (ObjectHandle * S3Object) :=
  λ w,
    let w' := mkWorld (w_bucket w) (w_objects w) (w_stdout w) (w_stderr w)
                (w_calls w ++ [OpGet (key h) a]) in
    match loaded h with
    | Some o => (Returns (h, o), w')
    | None =>
        match w_objects w !! key h with
        | Some o =>
            (Returns (mkHandle (bucket_name h) (key h) (Some o), o), w')
        | None => (Raises (ClientError (key h)), w')
        end
    end.

Section Worker.

(** [mimetypes.guess_type(name)[0]]: the table is the platform's. *)
Variable guess_type : string → option string.

(** How the service treats the content disposition on a replacing copy. *)
Variable keep : bool.

(** [key.copy_from(...)] *)
Definition copy_from (c : CopyCall) : M unit :=
  λ w, (tt, mkWorld (w_bucket w) (S3.copy_from keep c (w_objects w))
                    (w_stdout w) (w_stderr w) (w_calls w ++ [OpCopyFrom c])).

(** Lines 70 to 78: the metadata handed to the copy. *)
Definition fix_content_type (expected : string)
    (metadata : gmap string string) : gmap string string :=
  if bool_decide (is_Some (metadata !! "Content-Type"))
  then <["Content-Type" := expected]> metadata
  else metadata.

Definition fix_content_disposition (disposition : option string)
    (metadata : gmap string string) : gmap string string :=
  if Py.truthy disposition
  then <["Content-Disposition" := Py.chars disposition]> metadata
  else metadata.

Definition fixed_metadata (expected : string) (o : S3Object)
    : gmap string string :=
  fix_content_disposition (content_disposition o)
    (fix_content_type expected (metadata o)).

(** Lines 80 to 86. *)
Definition copy_call (h : ObjectHandle) (expected : string)
    (metadata : gmap string string) : CopyCall :=
  {| Bucket := bucket_name h;
     Key := key h;
     CopySource := bucket_name h +:+ "/" +:+ key h;
     MetadataDirective := "REPLACE";
     Metadata := metadata;
     ContentType := expected |}.

Definition lookup_report (h : ObjectHandle) : string :=
  key h +:+ ": Could not lookup".

Definition guess_report (h : ObjectHandle) : string :=
  key h +:+ ": Could not guess content type".

Definition match_report (h : ObjectHandle) : string :=
  key h +:+ ": Matches expected content type".

Definition fixing_report (h : ObjectHandle) (current : option string)
    (expected : string) : string :=
  key h +:+ ": Current content type (" +:+ Py.str current
    +:+ ") does not match expected (" +:+ expected +:+ "); fixing".

(** Lines 70 to 86, run when the types differ and [dryrun] is off. *)
Definition apply_fix (h : ObjectHandle) (o : S3Object) (expected : string)
    : M unit :=
  metadata ← get_attr h AMetadata (metadata o);
  let metadata := fix_content_type expected metadata in
  disposition ← get_attr h AContentDisposition (content_disposition o);
  metadata ← (if Py.truthy disposition
              then d ← get_attr h AContentDisposition (content_disposition o);
                   ret (<["Content-Disposition" := Py.chars d]> metadata)
              else ret metadata);
  copy_from (copy_call h expected metadata).

(** Lines 63 to 86. *)
Definition compare_and_fix (verbose dryrun : bool) (h : ObjectHandle)
    (o : S3Object) (current : option string) (expected : string) : M unit :=
  if bool_decide (current = Some expected)
  then (if verbose then print (match_report h) else ret tt)
  else print (fixing_report h current expected) ;;
       if negb dryrun then apply_fix h o expected else ret tt.

(** Lines 47 to 86: the body of the loop for a dequeued key name.  A
    path that returns ends the iteration, and the loop dequeues again; the
    read of [key.content_type] on line 56 is the first to need the object
    and raises when the bucket does not hold it. *)
Definition process_key (verbose dryrun : bool) (key_name : string) : MX unit :=
  h ← lift (Object key_name);
  if negb (handle_truth h) then lift (print_stderr (lookup_report h))
  else if Py.endswith (key h) "/" then retx tt
  else
    ho ← fetch h AContentType;
    let h := ho.1 in
    let current := content_type ho.2 in
    let expected_content_type := guess_type (key h) in
    if negb (Py.truthy expected_content_type)
    then lift (print_stderr (guess_report h))
    else lift (compare_and_fix verbose dryrun h ho.2 current
                 (Py.chars expected_content_type)).

(** What [queue.get] hands back: an item (a key name, or [None] as the
    stop signal), or an exception. *)
Inductive GetResult :=
| Got (item : option string)
| Raised.

(** How one turn of the loop ends: with the next turn, with [break], or
    with an exception that nothing catches. *)
Inductive Flow := Continue | Break | Uncaught (e : Exn).

(** Lines 47 to 86 stand outside the [try] of line 39. *)
Definition uncaught (m : MX unit) : M Flow :=
  λ w, match m w with
       | (Returns _, w') => (Continue, w')
       | (Raises e, w') => (Uncaught e, w')
       end.

(** Lines 39 to 86: one turn of [while True]. *)
Definition loop_body (verbose dryrun : bool) (g : GetResult) : M Flow :=
  match g with
  | Raised => ret Break
  | Got None => ret Break
  | Got (Some key_name) => uncaught (process_key verbose dryrun key_name)
  end.

(** How [check_headers] ends: it returns, it is left by an exception, or
    it is still inside [get]. *)
Inductive WorkerEnd := Returned | Waiting | Died (e : Exn).

(** [check_headers] against the results its successive [queue.get] calls
    produce; when they run out the worker is still inside [get]. *)
Fixpoint check_headers (verbose dryrun : bool) (gets : list GetResult)
    : M WorkerEnd :=
  match gets with
  | [] => ret Waiting
  | g :: gets' =>
      flow ← loop_body verbose dryrun g;
      match flow with
      | Break => ret Returned
      | Continue => check_headers verbose dryrun gets'
      | Uncaught e => ret (Died e)
      end
  end.

End Worker.

(** ** The blocking dequeue *)

Definition BLOCK_TIME : Z := 60 * 60.

Module Queue.

(** The parameters of [Queue.get(self, block=True, timeout=None)]. *)
Record GetArgs := mkGetArgs {
  block : bool;
  timeout : option Z
}.

(** Binding of the positional arguments of a call of [get]: the first
    is [block], the second [timeout]; a missing one takes its default. *)
Definition get_args (positional : list Z) : GetArgs :=
  match positional with
  | [] => mkGetArgs true None
  | b :: [] => mkGetArgs (Py.truthy_int b) None
  | b :: t :: _ => mkGetArgs (Py.truthy_int b) (Some t)
  end.

Inductive Outcome :=
| Delivered (item : option string)
| Empty
| StillWaiting.

(** Waiting second by second.  [arrival t] is the item a [get] finds at
    second [t] after the call, if any; [seconds] is for how long the
    caller is observed.  With a deadline the wait ends by raising
    [Empty]; without one it ends only with an item. *)
Fixpoint wait (deadline : option nat) (arrival : nat → option (option string))
    (now seconds : nat) : Outcome :=
  match arrival now with
  | Some item => Delivered item
  | None =>
      if (match deadline with Some d => (d <=? now)%nat | None => false end)
      then Empty
      else match seconds with
           | O => StillWaiting
           | S seconds' => wait deadline arrival (S now) seconds'
           end
  end.

(** [get] of the standard library's queue: a blocking call without a
    timeout waits for an item, a blocking call with a timeout raises
    [Empty] at the deadline, a call that does not block raises it at
    once. *)
Definition get (a : GetArgs) (arrival : nat → option (option string))
    (seconds : nat) : Outcome :=
  if block a
  then wait (Z.to_nat <$> timeout a) arrival 0 seconds
  else match arrival 0%nat with
       | Some item => Delivered item
       | None => Empty
       end.

End Queue.

(** Line 40: [queue.get(BLOCK_TIME)]. *)
Definition worker_get (arrival : nat → option (option string)) (seconds : nat)
    : Queue.Outcome :=
  Queue.get (Queue.get_args [BLOCK_TIME]) arrival seconds.

(** The same call with the ceiling passed as the timeout. *)
Definition bounded_get (arrival : nat → option (option string)) (seconds : nat)
    : Queue.Outcome :=
  Queue.get (Queue.mkGetArgs true (Some BLOCK_TIME)) arrival seconds.

(** ** Candidate enumeration *)

Module Enumerator.

(** [set(iterable)]: every element is added in turn. *)
Definition set (elems : list string) : gset string :=
  foldl (λ acc x, acc ∪ {[x]}) ∅ elems.

(** [key for prefix in prefixes for key in bucket.objects.filter(Prefix=prefix)] *)
Definition listed (objects_filter : string → list string)
    (prefixes : list string) : list string :=
  prefix ← prefixes; objects_filter prefix.

End Enumerator.

(** Lines 15 to 20.  Two summaries of one bucket are equal when their keys
    are, so the set is a set of keys. *)
Definition find_matching_files (objects_filter : string → list string)
    (prefixes : list string) : gset string :=
  Enumerator.set (Enumerator.listed objects_filter prefixes).

(** The candidate set as the specification words it: the union, over the
    configured prefixes, of the set of keys listed under each. *)
Definition deduplicated_union (objects_filter : string → list string)
    (prefixes : list string) : gset string :=
  ⋃ ((λ prefix, list_to_set (objects_filter prefix)) <$> prefixes).

(** ** The coordinator, the queue and the worker processes *)

Record Args := mkArgs {
  access_key : string;
  secret_key : string;
  bucket : string;
  prefixes : list string;
  workers : Z;
  verbose : bool;
  dryrun : bool
}.

(** A worker process: in its loop, returned from [check_headers], or
    ended by an exception. *)
Inductive Proc := Running | Finished | Dead.

(** One run in flight: what [main] has still to put, the queue, the worker
    processes, every dequeue so far (worker, item) and the world. *)
Record System := mkSystem {
  feed : list (option string);
  queue : list (option string);
  procs : list Proc;
  taken : list (nat * option string);
  world : World
}.

Inductive Actor := Coordinator | FixWorker (i : nat).

Section Run.

Variable guess_type : string → option string.
Variable keep : bool.
Variable objects_filter : string → list string.
Variable args : Args.

Definition pool : nat := Py.xrange_len (workers args).

(** The keys in the order [main] iterates over the candidate set. *)
Definition candidates : list string :=
  elements (find_matching_files objects_filter (prefixes args)).

(** Lines 118 to 125: every [queue.put] of [main], in order. *)
Definition puts : list (option string) :=
  (Some <$> candidates) ++ replicate pool None.

(** Lines 107 to 116: the queue is empty and the workers are started
    before anything is put. *)
Definition start (objects : gmap string S3Object) : System :=
  {| feed := puts;
     queue := [];
     procs := replicate pool Running;
     taken := [];
     world := mkWorld (bucket args) objects [] [] [] |}.

(** The next [queue.put] of [main]. *)
Definition put_step (s : System) : option System :=
  match feed s with
  | [] => None
  | x :: rest =>
      Some (mkSystem rest (queue s ++ [x]) (procs s) (taken s) (world s))
  end.

(** One turn of the loop of worker [i]: it leaves [queue.get] only with
    the item at the head of the queue. *)
Definition worker_step (i : nat) (s : System) : option System :=
  match procs s !! i, queue s with
  | Some Running, x :: rest =>
      let (flow, w) :=
        loop_body guess_type keep (verbose args) (dryrun args) (Got x)
          (world s) in
      Some (mkSystem (feed s) rest
              (match flow with
               | Break => <[i := Finished]> (procs s)
               | Continue => procs s
               | Uncaught _ => <[i := Dead]> (procs s)
               end)
              (taken s ++ [(i, x)]) w)
  | _, _ => None
  end.

Definition step_actor (a : Actor) (s : System) : option System :=
  match a with
  | Coordinator => put_step s
  | FixWorker i => worker_step i s
  end.

Definition step (s s' : System) : Prop := ∃ a, step_actor a s = Some s'.

(** A run under a schedule; an actor that cannot move is passed over. *)
Definition run (schedule : list Actor) (s : System) : System :=
  foldl (λ s a, default s (step_actor a s)) s schedule.

End Run.

(** ** A small instance for examples *)

Module Sample.

(** The extension of a name: from its last dot, if no slash follows. *)
Fixpoint ext_rev (rev_name : list ascii) (acc : list ascii) : list ascii :=
  match rev_name with
  | [] => []
  | c :: rest =>
      if Ascii.eqb c "." then c :: acc
      else if Ascii.eqb c "/" then []
      else ext_rev rest (c :: acc)
  end.

Definition ext (name : string) : string :=
  String.string_of_list_ascii
    (ext_rev (rev (String.list_ascii_of_string name)) []).

(** Three rows of the platform table. *)
Definition types_map : gmap string string :=
  {[ ".png" := "image/png"; ".css" := "text/css"; ".txt" := "text/plain" ]}.

Definition guess_type (name : string) : option string :=
  types_map !! ext name.

Definition obj (ct : string) : S3Object := mkObject (Some ct) None ∅.

(** The bucket of the scenario: [a.png] declared [text/plain], [b.css]
    declared [text/css], the marker [dir/], a name without a known
    extension, and a text file under [dir/] uploaded with a generic type,
    a content disposition and a Content-Type entry in its metadata. *)
Definition report : S3Object :=
  mkObject (Some "binary/octet-stream") (Some "attachment")
    {[ "Content-Type" := "binary/octet-stream"; "owner" := "ops" ]}.

Definition objects : gmap string S3Object :=
  {[ "a.png" := obj "text/plain";
     "b.css" := obj "text/css";
     "dir/" := obj "application/x-directory";
     "dir/report.txt" := report;
     "weird.unknownext" := obj "binary/octet-stream" ]}.

Definition w0 : World := mkWorld "assets" objects [] [] [].

(** The same bucket name with nothing in it. *)
Definition empty : World := mkWorld "assets" ∅ [] [] [].

(** Listing by prefix. *)
Definition objects_filter (prefix : string) : list string :=
  List.filter (String.prefix prefix)
    ["a.png"; "b.css"; "dir/"; "dir/report.txt"; "weird.unknownext"].

(** [-b assets -p "" dir/ -w 2] *)
Definition args : Args :=
  mkArgs "AK" "SK" "assets" [""; "dir/"] 2 false false.

Definition schedule : list Actor :=
  [Coordinator; FixWorker 0; Coordinator; Coordinator; FixWorker 1;
   FixWorker 1; Coordinator; Coordinator; FixWorker 0; FixWorker 1;
   Coordinator; Coordinator; FixWorker 0; FixWorker 0; FixWorker 1].

End Sample.

(** ** Measures and observations used in the statements *)

(** The attribute reads of lines 70 to 78. *)
Definition fix_reads (k : string) (o : S3Object) : list StoreOp :=
  [OpGet k AMetadata; OpGet k AContentDisposition]
    ++ (if Py.truthy (content_disposition o)
        then [OpGet k AContentDisposition] else []).

Definition is_running (p : Proc) : bool :=
  match p with Running => true | Finished | Dead => false end.

Definition is_finished (p : Proc) : bool :=
  match p with Finished => true | Running | Dead => false end.

(** How many worker processes have returned from [check_headers]. *)
Definition finished (ps : list Proc) : nat :=
  length (List.filter is_finished ps).

Definition is_stop (item : option string) : bool :=
  match item with None => true | Some _ => false end.

(** How many worker processes are still in their loop. *)
Definition running (ps : list Proc) : nat := length (List.filter is_running ps).

(** How many stop signals a sequence of items holds. *)
Definition stops (items : list (option string)) : nat :=
  length (List.filter is_stop items).

(** The key names of a sequence of items. *)
Definition keys_of (items : list (option string)) : list string :=
  omap id items.

(** Every item dequeued so far, and the key names among them, in order. *)
Definition dequeued (s : System) : list (option string) := (taken s).*2.

Definition dequeued_keys (s : System) : list string := keys_of (dequeued s).

(** How many times a key name has been dequeued, all workers together. *)
Definition times_dequeued (k : string) (s : System) : nat :=
  length (List.filter (λ x, bool_decide (x = k)) (dequeued_keys s)).

(** What is left to do: two moves for an item still to be put, one for an
    item in the queue. *)
Definition remaining (s : System) : nat :=
  2 * length (feed s) + length (queue s).

Definition with_dryrun (b : bool) (a : Args) : Args :=
  mkArgs (access_key a) (secret_key a) (bucket a) (prefixes a) (workers a)
    (verbose a) b.

(** The lines one visit of a key writes, [(stdout, stderr)], read off the
    branches of lines 47 to 68; they depend on the object alone.  A visit
    of a key the bucket does not hold writes none: it is skipped on line
    53 or ends on line 56. *)
Definition reports (guess_type : string → option string) (verbose : bool)
    (k : string) (found : option S3Object) : list string * list string :=
  match found with
  | None => ([], [])
  | Some o =>
      if Py.endswith k "/" then ([], [])
      else if negb (Py.truthy (guess_type k))
      then ([], [k +:+ ": Could not guess content type"])
      else if bool_decide (content_type o = Some (Py.chars (guess_type k)))
      then (if verbose then [k +:+ ": Matches expected content type"] else [],
            [])
      else ([fixing_report (mkHandle "" k found) (content_type o)
               (Py.chars (guess_type k))], [])
  end.

(** What every state of a run satisfies: the items are conserved in
    order, as many stop signals have been dequeued as workers have
    returned, and the pool keeps its size. *)
Definition invariant (objects_filter : string → list string) (args : Args)
    (s : System) : Prop :=
  (dequeued s ++ queue s ++ feed s)%list = puts objects_filter args
  ∧ finished (procs s) = stops (dequeued s)
  ∧ length (procs s) = pool args.

(** How a turn of the loop ends after a visit that ended with [r]. *)
Definition flow_of (r : Result unit) : Flow :=
  match r with
  | Returns _ => Continue
  | Raises e => Uncaught e
  end.

(** No worker process has been ended by an exception. *)
Definition none_dead (ps : list Proc) : Prop := Forall (λ p, p ≠ Dead) ps.

(** How a visit of key [k] ends, given what the bucket holds under it. *)
Definition visit_result (k : string) (found : option S3Object) : Result unit :=
  if Py.endswith k "/" then Returns tt
  else match found with
       | Some _ => Returns tt
       | None => Raises (ClientError k)
       end.

(** No visit of a candidate can raise: the bucket holds every candidate
    whose name does not end with the separator. *)
Definition all_stored (ks : list string) (objects : gmap string S3Object)
    : Prop :=
  ∀ k, k ∈ ks → Py.endswith k "/" = false → is_Some (objects !! k).

(** Two runs under one schedule, one dry and one not, that agree on the
    queue, on the streams and on the objects still to be visited. *)
Definition alike (d n : System) : Prop :=
  feed d = feed n ∧ queue d = queue n ∧ procs d = procs n
  ∧ w_stdout (world d) = w_stdout (world n)
  ∧ w_stderr (world d) = w_stderr (world n)
  ∧ NoDup (keys_of (queue n ++ feed n))
  ∧ ∀ k, k ∈ keys_of (queue n ++ feed n) →
         w_objects (world d) !! k = w_objects (world n) !! k.

(** ** The bucket handle, sequences of visits, settled objects *)

(** The keyword arguments of [Session(...)]. *)
Record Session := mkSession {
  aws_access_key_id : string;
  aws_secret_access_key : string;
  region_name : string
}.

(** [session.resource("s3").Bucket(bucket)]. *)
Record BucketRef := mkBucketRef {
  session : Session;
  name : string
}.

(** Lines 22 to 30. *)
Definition get_bucket (access_key secret_key bucket : string) : BucketRef :=
  mkBucketRef (mkSession access_key secret_key "ap-northeast-1") bucket.

(** Line 109. *)
Definition main_bucket (a : Args) : BucketRef :=
  get_bucket (access_key a) (secret_key a) (bucket a).

(** The key names visited one after the other, as one worker does. *)
Definition visits (guess_type : string → option string) (keep : bool)
    (verbose dryrun : bool) (ks : list string) (w : World) : World :=
  foldl (λ w k, exec (process_key guess_type keep verbose dryrun k) w) w ks.

(** An object needs no fix: if the bucket holds one under the key, its
    name does not end with the separator and a type is inferred from it,
    the declared type is that type. *)
Definition settled (guess_type : string → option string) (k : string)
    (objects : gmap string S3Object) : Prop :=
  ∀ o, objects !! k = Some o →
       Py.endswith k "/" = false →
       Py.truthy (guess_type k) = true →
       content_type o = Some (Py.chars (guess_type k)).

(** A call on the bucket made for key [k] of bucket [b]: a lookup or a
    read of [k], or a replacing copy of [k] onto itself with the type
    inferred from its name. *)
Definition call_on (guess_type : string → option string) (b k : string)
    (op : StoreOp) : Prop :=
  match op with
  | OpObject k' => k' = k
  | OpGet k' _ => k' = k
  | OpCopyFrom c =>
      Bucket c = b ∧ Key c = k
      ∧ CopySource c = b +:+ "/" +:+ k
      ∧ MetadataDirective c = "REPLACE"
      ∧ Py.truthy (guess_type k) = true
      ∧ ContentType c = Py.chars (guess_type k)
  end.

(** ** More instances for examples *)

Module Scenario.

(** The sample run, carried to its end. *)
Definition final : System :=
  run Sample.guess_type false Sample.args Sample.schedule
    (start Sample.objects_filter Sample.args Sample.objects).

(** The tool run again on the bucket as the sample run left it. *)
Definition again : System :=
  run Sample.guess_type false Sample.args Sample.schedule
    (start Sample.objects_filter Sample.args (w_objects (world final))).

(** [-w 0] *)
Definition idle_args : Args :=
  mkArgs "AK" "SK" "assets" [""; "dir/"] 0 false false.

Definition idle : System :=
  run Sample.guess_type false idle_args Sample.schedule
    (start Sample.objects_filter idle_args Sample.objects).

(** [-p] with no value after it. *)
Definition no_prefix_args : Args :=
  mkArgs "AK" "SK" "assets" [] 2 false false.

Definition no_prefix : System :=
  run Sample.guess_type false no_prefix_args Sample.schedule
    (start Sample.objects_filter no_prefix_args Sample.objects).

(** A bucket that needs no fix. *)
Definition tidy : gmap string S3Object :=
  {[ "b.css" := Sample.obj "text/css" ]}.

Definition tidy_run : System :=
  run Sample.guess_type false Sample.args Sample.schedule
    (start Sample.objects_filter Sample.args tidy).




End Scenario.

(** * Properties of the worker *)

Section WorkerFacts.

Variable guess_type : string → option string.
Variable keep : bool.

Abbreviation process_key := (process_key guess_type keep).
Abbreviation loop_body := (loop_body guess_type keep).
Abbreviation check_headers := (check_headers guess_type keep).

Lemma apply_fix_run h o e w :
  apply_fix keep h o e w =
    (tt, mkWorld (w_bucket w)
           (S3.copy_from keep (copy_call h e (fixed_metadata e o)) (w_objects w))
           (w_stdout w) (w_stderr w)
           (w_calls w ++ fix_reads (key h) o
              ++ [OpCopyFrom (copy_call h e (fixed_metadata e o))])).
Proof.
  unfold apply_fix, fix_reads, fixed_metadata, fix_content_disposition,
    get_attr, copy_from, log, mbind, M_bind, bind, ret.
  destruct (Py.truthy (content_disposition o)); simpl;
    rewrite <- ?app_assoc; reflexivity.
Qed.

Lemma process_key_missing verbose dryrun k w :
  w_objects w !! k = None →
  Py.endswith k "/" = false →
  process_key verbose dryrun k w =
    (Raises (ClientError k),
     mkWorld (w_bucket w) (w_objects w) (w_stdout w) (w_stderr w)
       (w_calls w ++ [OpObject k; OpGet k AContentType])).
Proof.
  intros Hk Hd.
  unfold process_key, lift, Object, fetch, mbind, MX_bind, bindx. simpl.
  rewrite Hd. simpl. rewrite Hk. simpl. rewrite <- app_assoc. reflexivity.
Qed.

Lemma process_key_directory verbose dryrun k w :
  Py.endswith k "/" = true →
  process_key verbose dryrun k w =
    (Returns tt,
     mkWorld (w_bucket w) (w_objects w) (w_stdout w) (w_stderr w)
       (w_calls w ++ [OpObject k])).
Proof.
  intros Hd.
  unfold process_key, lift, Object, mbind, MX_bind, bindx. simpl.
  rewrite Hd. reflexivity.
Qed.

Lemma process_key_unguessable verbose dryrun k o w :
  w_objects w !! k = Some o →
  Py.endswith k "/" = false →
  Py.truthy (guess_type k) = false →
  process_key verbose dryrun k w =
    (Returns tt,
     mkWorld (w_bucket w) (w_objects w) (w_stdout w)
       (w_stderr w ++ [k +:+ ": Could not guess content type"])
       (w_calls w ++ [OpObject k; OpGet k AContentType])).
Proof.
  intros Hk Hd Hg.
  unfold process_key, lift, Object, fetch, print_stderr, mbind, MX_bind,
    bindx. simpl.
  rewrite Hd. simpl. rewrite Hk. simpl. rewrite Hg. simpl. rewrite <- app_assoc.
  reflexivity.
Qed.

Lemma process_key_match verbose dryrun k o w :
  w_objects w !! k = Some o →
  Py.endswith k "/" = false →
  Py.truthy (guess_type k) = true →
  content_type o = Some (Py.chars (guess_type k)) →
  process_key verbose dryrun k w =
    (Returns tt,
     mkWorld (w_bucket w) (w_objects w)
       (w_stdout w ++ (if verbose
                       then [k +:+ ": Matches expected content type"]
                       else []))
       (w_stderr w)
       (w_calls w ++ [OpObject k; OpGet k AContentType])).
Proof.
  intros Hk Hd Hg Hc.
  unfold process_key, compare_and_fix, lift, Object, fetch, print,
    mbind, MX_bind, bindx, ret. simpl.
  rewrite Hd. simpl. rewrite Hk. simpl. rewrite Hg. simpl.
  rewrite bool_decide_eq_true_2 by done.
  destruct verbose; simpl; rewrite <- app_assoc, ?app_nil_r; reflexivity.
Qed.

Lemma process_key_mismatch verbose dryrun k o w :
  w_objects w !! k = Some o →
  Py.endswith k "/" = false →
  Py.truthy (guess_type k) = true →
  content_type o ≠ Some (Py.chars (guess_type k)) →
  let e := Py.chars (guess_type k) in
  let h := mkHandle (w_bucket w) k (Some o) in
  let c := copy_call h e (fixed_metadata e o) in
  process_key verbose dryrun k w =
    (Returns tt,
     mkWorld (w_bucket w)
       (if dryrun then w_objects w
        else S3.copy_from keep c (w_objects w))
       (w_stdout w ++ [fixing_report h (content_type o) e])
       (w_stderr w)
       (w_calls w ++ [OpObject k; OpGet k AContentType]
          ++ (if dryrun then [] else fix_reads k o ++ [OpCopyFrom c]))).
Proof.
  intros Hk Hd Hg Hc e h c.
  unfold process_key, compare_and_fix, lift, Object, fetch, print,
    mbind, MX_bind, M_bind, bindx, bind, ret. simpl.
  rewrite Hd. simpl. rewrite Hk. simpl. rewrite Hg. simpl.
  rewrite bool_decide_eq_false_2 by done.
  destruct dryrun; simpl.
  - rewrite <- app_assoc. reflexivity.
  - rewrite apply_fix_run. simpl. rewrite <- !app_assoc. reflexivity.
Qed.

Lemma fix_content_type_lookup e (m : gmap string string) j :
  fix_content_type e m !! j =
    if bool_decide (j = "Content-Type") && bool_decide (is_Some (m !! j))
    then Some e else m !! j.
Proof.
  unfold fix_content_type.
  destruct (bool_decide_reflect (j = "Content-Type")) as [->|Hj]; simpl.
  - destruct (bool_decide (is_Some (m !! "Content-Type"))); [|done].
    apply lookup_insert_eq.
  - destruct (bool_decide (is_Some (m !! "Content-Type"))); [|done].
    by rewrite lookup_insert_ne.
Qed.

Lemma truthy_Some v :
  Py.truthy v = true → v = Some (Py.chars v) ∧ Py.chars v ≠ "".
Proof.
  destruct v as [s|]; simpl; [|done].
  intros H. split; [done|]. intros ->. done.
Qed.

Lemma fix_content_disposition_lookup d (m : gmap string string) j :
  fix_content_disposition d m !! j =
    if bool_decide (j = "Content-Disposition") && Py.truthy d
    then d else m !! j.
Proof.
  unfold fix_content_disposition.
  destruct (Py.truthy d) eqn:Hd; rewrite ?andb_false_r; [|done].
  destruct (truthy_Some d Hd) as [Hs _].
  destruct (bool_decide_reflect (j = "Content-Disposition")) as [->|Hj]; simpl.
  - rewrite lookup_insert_eq. congruence.
  - by rewrite lookup_insert_ne.
Qed.

(** The metadata handed to the copy, entry by entry. *)
Lemma fixed_metadata_lookup e o j :
  fixed_metadata e o !! j =
    if bool_decide (j = "Content-Disposition")
       && Py.truthy (content_disposition o)
    then content_disposition o
    else if bool_decide (j = "Content-Type")
            && bool_decide (is_Some (metadata o !! j))
         then Some e
         else metadata o !! j.
Proof.
  unfold fixed_metadata.
  by rewrite fix_content_disposition_lookup, fix_content_type_lookup.
Qed.

Lemma filter_is_copy_reads k o : List.filter is_copy (fix_reads k o) = [].
Proof. unfold fix_reads. by destruct (Py.truthy _). Qed.

(** C1: a key whose outcome is Fix, dry run off: one copy of the object
    onto itself is issued, with the directive REPLACE, the expected type
    as content type, and as metadata the fetched map in which an existing
    Content-Type entry is overwritten with the expected type and the
    content disposition, when the object has one, is stored under
    Content-Disposition. *)
Theorem fix_issues_one_replacing_self_copy verbose k o w e :
  w_objects w !! k = Some o →
  Py.endswith k "/" = false →
  guess_type k = Some e → e ≠ "" →
  content_type o ≠ Some e →
  let w' := exec (process_key verbose false k) w in
  ∃ c,
    List.filter is_copy (w_calls w')
      = (List.filter is_copy (w_calls w) ++ [OpCopyFrom c])%list
    ∧ Bucket c = w_bucket w ∧ Key c = k
    ∧ CopySource c = w_bucket w +:+ "/" +:+ k
    ∧ MetadataDirective c = "REPLACE"
    ∧ ContentType c = e
    ∧ (is_Some (metadata o !! "Content-Type") →
       Metadata c !! "Content-Type" = Some e)
    ∧ (∀ d, content_disposition o = Some d → d ≠ "" →
       Metadata c !! "Content-Disposition" = Some d)
    ∧ ∀ j, Metadata c !! j =
        if bool_decide (j = "Content-Disposition")
           && Py.truthy (content_disposition o)
        then content_disposition o
        else if bool_decide (j = "Content-Type")
                && bool_decide (is_Some (metadata o !! j))
             then Some e
             else metadata o !! j.
Proof.
  intros Hk Hd Hg He Hc w'.
  assert (Ht : Py.truthy (guess_type k) = true).
  { rewrite Hg. simpl. by destruct (String.eqb_spec e ""). }
  assert (Hch : Py.chars (guess_type k) = e) by (by rewrite Hg).
  pose proof (process_key_mismatch verbose false k o w Hk Hd Ht) as Hrun.
  rewrite Hch in Hrun. specialize (Hrun Hc). cbv zeta in Hrun.
  subst w'. unfold exec. rewrite Hrun. cbn [snd w_calls].
  eexists. split.
  { rewrite !List.filter_app, filter_is_copy_reads. reflexivity. }
  cbn [Bucket Key CopySource MetadataDirective ContentType Metadata copy_call
       bucket_name key].
  repeat split.
  - intros Hin. rewrite fixed_metadata_lookup. simpl.
    destruct (Py.truthy _); simpl; by rewrite ?bool_decide_eq_true_2.
  - intros d Hcd Hne. rewrite fixed_metadata_lookup, Hcd. simpl.
    by destruct (String.eqb_spec d "").
  - intros j. apply fixed_metadata_lookup.
Qed.

(** C10: in a fix with dry run off, the metadata of the copy agrees with
    the fetched metadata on every key other than Content-Type and
    Content-Disposition; no Content-Type entry is added to a map that has
    none, the expected type then going only through the content-type
    argument; without a content disposition the Content-Disposition entry
    is as fetched. *)
Theorem fix_metadata_frame verbose k o w e :
  w_objects w !! k = Some o →
  Py.endswith k "/" = false →
  guess_type k = Some e → e ≠ "" →
  content_type o ≠ Some e →
  ∃ reads c,
    w_calls (exec (process_key verbose false k) w)
      = (w_calls w ++ reads ++ [OpCopyFrom c])%list
    ∧ List.filter is_copy reads = []
    ∧ ContentType c = e
    ∧ (∀ j, j ≠ "Content-Type" → j ≠ "Content-Disposition" →
       Metadata c !! j = metadata o !! j)
    ∧ (metadata o !! "Content-Type" = None →
       Metadata c !! "Content-Type" = None)
    ∧ (Py.truthy (content_disposition o) = false →
       Metadata c !! "Content-Disposition"
         = metadata o !! "Content-Disposition").
Proof.
  intros Hk Hd Hg He Hc.
  assert (Ht : Py.truthy (guess_type k) = true).
  { rewrite Hg. simpl. by destruct (String.eqb_spec e ""). }
  assert (Hch : Py.chars (guess_type k) = e) by (by rewrite Hg).
  pose proof (process_key_mismatch verbose false k o w Hk Hd Ht) as Hrun.
  rewrite Hch in Hrun. specialize (Hrun Hc). cbv zeta in Hrun.
  unfold exec. rewrite Hrun. cbn [snd w_calls].
  exists ([OpObject k; OpGet k AContentType] ++ fix_reads k o)%list. eexists.
  split; [by rewrite <- !app_assoc|].
  split; [by rewrite List.filter_app, filter_is_copy_reads|].
  cbn [ContentType Metadata copy_call]. repeat split.
  - intros j H1 H2. rewrite fixed_metadata_lookup.
    rewrite (bool_decide_eq_false_2 (j = "Content-Disposition")) by done.
    by rewrite (bool_decide_eq_false_2 (j = "Content-Type")) by done.
  - intros Hn. rewrite fixed_metadata_lookup, Hn. simpl.
    by destruct (Py.truthy _).
  - intros Hn. rewrite fixed_metadata_lookup, Hn. by rewrite andb_false_r.
Qed.

(** C6, on the code: the test of line 49 never holds, for every handle
    is true, and nothing is written about a lookup.  A dequeued key that
    the bucket does not hold, unless its name ends with the separator, is
    met by the read of line 56, which raises: the turn of the loop ends
    with an exception nothing catches, [check_headers] is left without
    looking at the next item, and the worker process is dead. *)
Theorem missing_object_ends_the_worker vb dr k w :
  w_objects w !! k = None →
  Py.endswith k "/" = false →
  let w' := mkWorld (w_bucket w) (w_objects w) (w_stdout w) (w_stderr w)
              (w_calls w ++ [OpObject k; OpGet k AContentType]) in
  (∀ name w0, handle_truth (Object name w0).1 = true)
  ∧ loop_body vb dr (Got (Some k)) w = (Uncaught (ClientError k), w')
  ∧ (∀ gets, check_headers vb dr (Got (Some k) :: gets) w
             = (Died (ClientError k), w'))
  ∧ (∀ args i s rest,
       world s = w → verbose args = vb → dryrun args = dr →
       procs s !! i = Some Running → queue s = Some k :: rest →
       worker_step guess_type keep args i s
         = Some (mkSystem (feed s) rest (<[i := Dead]> (procs s))
                   (taken s ++ [(i, Some k)]) w')).
Proof.
  intros Hk Hd w'. split; [done|].
  assert (Hb : loop_body vb dr (Got (Some k)) w = (Uncaught (ClientError k), w')).
  { unfold loop_body, uncaught. by rewrite process_key_missing. }
  split; [done|]. split.
  - intros gets. simpl. unfold mbind, M_bind, bind, uncaught.
    by rewrite process_key_missing.
  - intros args i s rest <- <- <- Hi Hq. unfold worker_step.
    by rewrite Hi, Hq, Hb.
Qed.

(** C4: a dequeued key whose name ends with the separator: the worker
    reads no attribute of the object, compares nothing, issues no copy,
    writes on neither stream and goes on with the next item. *)
Theorem directory_marker_is_skipped_silently vb dr k w :
  Py.endswith k "/" = true →
  let w' := mkWorld (w_bucket w) (w_objects w) (w_stdout w) (w_stderr w)
              (w_calls w ++ [OpObject k]) in
  loop_body vb dr (Got (Some k)) w = (Continue, w')
  ∧ ∀ gets, check_headers vb dr (Got (Some k) :: gets) w
            = check_headers vb dr gets w'.
Proof.
  intros Hd w'. split.
  - unfold loop_body, uncaught. by rewrite process_key_directory.
  - intros gets. simpl. unfold mbind, M_bind, bind, uncaught.
    by rewrite process_key_directory.
Qed.


Lemma fixed_metadata_stable e o o1 :
  metadata o1 = fixed_metadata e o →
  content_disposition o1 = (if keep then content_disposition o else None) →
  fixed_metadata e o1 = fixed_metadata e o.
Proof.
  intros Hm Hcd. apply map_eq. intros j.
  rewrite (fixed_metadata_lookup e o1), Hm, Hcd.
  rewrite !(fixed_metadata_lookup e o).
  destruct (decide (j = "Content-Disposition")) as [->|Hj].
  - rewrite !(bool_decide_eq_true_2
               ("Content-Disposition" = "Content-Disposition")) by done.
    rewrite !(bool_decide_eq_false_2
               ("Content-Disposition" = "Content-Type")) by done.
    cbn [andb].
    destruct keep, (Py.truthy (content_disposition o)) eqn:Ht;
      cbn [Py.truthy]; by rewrite ?Ht.
  - rewrite !(bool_decide_eq_false_2 (j = "Content-Disposition")) by done.
    cbn [andb].
    destruct (decide (j = "Content-Type")) as [->|Hj'].
    + rewrite !(bool_decide_eq_true_2 ("Content-Type" = "Content-Type"))
        by done.
      cbn [andb].
      destruct (metadata o !! "Content-Type") as [x|] eqn:Hx.
      * rewrite (bool_decide_eq_true_2 (is_Some (Some x))) by eauto.
        by rewrite (bool_decide_eq_true_2 (is_Some (Some e))) by eauto.
      * by rewrite (bool_decide_eq_false_2 (is_Some None))
          by (intros [? ?]; done).
    + by rewrite !(bool_decide_eq_false_2 (j = "Content-Type")) by done.
Qed.

(** C7: the fix is idempotent: once the copy of lines 70 to 86 has been
    applied to an object with an expected type, applying it again to the
    object as it then is, with the same expected type, leaves the declared
    media type and the metadata of the object, and the whole bucket, as
    they were after the first application. *)
Theorem fix_is_idempotent e k o w :
  w_objects w !! k = Some o →
  let h := mkHandle (w_bucket w) k (Some o) in
  let w1 := exec (apply_fix keep h o e) w in
  ∃ o1,
    w_objects w1 !! k = Some o1
    ∧ content_type o1 = Some e
    ∧ metadata o1 = fixed_metadata e o
    ∧ let h1 := mkHandle (w_bucket w1) k (Some o1) in
      let w2 := exec (apply_fix keep h1 o1 e) w1 in
      w_objects w2 = w_objects w1 ∧ w_objects w2 !! k = Some o1.
Proof.
  intros Hk h w1. subst w1. unfold exec. rewrite apply_fix_run.
  cbn [snd w_objects w_bucket].
  set (c := copy_call h e (fixed_metadata e o)).
  assert (Hkey : Key c = k) by done.
  unfold S3.copy_from. rewrite Hkey.
  exists (S3.replaced keep c o).
  split; [by rewrite lookup_alter_eq, Hk|].
  split; [done|]. split; [done|].
  cbv zeta. rewrite apply_fix_run. cbn [snd w_objects].
  set (c1 := copy_call _ e (fixed_metadata e (S3.replaced keep c o))).
  assert (Hkey1 : Key c1 = k) by done.
  unfold S3.copy_from. rewrite Hkey1.
  assert (Hsame : alter (S3.replaced keep c1) k
                    (alter (S3.replaced keep c) k (w_objects w))
                  = alter (S3.replaced keep c) k (w_objects w)).
  { apply map_eq. intros j. destruct (decide (j = k)) as [->|Hj].
    - rewrite !lookup_alter_eq, Hk. cbn [fmap option_fmap option_map]. f_equal.
      unfold S3.replaced at 1 3.
      cbn [Metadata ContentType copy_call c c1].
      f_equal.
      + unfold S3.replaced. cbn [content_disposition]. by destruct keep.
      + by apply fixed_metadata_stable.
    - by rewrite !lookup_alter_ne. }
  split; [exact Hsame|]. rewrite Hsame. by rewrite lookup_alter_eq, Hk.
Qed.

End WorkerFacts.

(** * The blocking dequeue *)

Lemma wait_forever arrival now seconds :
  (∀ t, arrival t = None) →
  Queue.wait None arrival now seconds = Queue.StillWaiting.
Proof.
  intros Hnone. revert now.
  induction seconds as [|n IH]; intros now; simpl; rewrite Hnone; [done|].
  apply IH.
Qed.

Lemma wait_without_deadline_never_raises arrival now seconds :
  Queue.wait None arrival now seconds ≠ Queue.Empty.
Proof.
  revert now. induction seconds as [|n IH]; intros now; simpl;
    destruct (arrival now); done.
Qed.

Lemma wait_deadline_raises arrival (d now seconds : nat) :
  (∀ t, arrival t = None) →
  (d ≤ now + seconds)%nat →
  Queue.wait (Some d) arrival now seconds = Queue.Empty.
Proof.
  intros Hnone. revert now.
  induction seconds as [|n IH]; intros now Hd; simpl; rewrite Hnone.
  - rewrite (proj2 (Nat.leb_le d now)) by lia. done.
  - destruct (d <=? now)%nat; [done|]. apply IH. lia.
Qed.

(** C8, on the code: [queue.get(BLOCK_TIME)] binds the ceiling to [block]
    and leaves [timeout] at [None].  The call then never raises [Empty],
    whatever arrives and however long the worker is watched, and on a
    queue where nothing arrives the worker is still waiting after any
    number of seconds; the same call with the ceiling as its timeout
    leaves the wait after [BLOCK_TIME] seconds and takes the [break] of
    line 42. *)
Theorem dequeue_wait_has_no_ceiling :
  Queue.get_args [BLOCK_TIME] = Queue.mkGetArgs true None
  ∧ (∀ arrival seconds, worker_get arrival seconds ≠ Queue.Empty)
  ∧ (∀ seconds, worker_get (λ _, None) seconds = Queue.StillWaiting)
  ∧ (∀ seconds, (Z.to_nat BLOCK_TIME ≤ seconds)%nat →
       bounded_get (λ _, None) seconds = Queue.Empty)
  ∧ (∀ guess_type keep vb dr w,
       loop_body guess_type keep vb dr Raised w = (Break, w)).
Proof.
  split; [reflexivity|]. split; [|split; [|split]].
  - intros arrival seconds. unfold worker_get, Queue.get. simpl.
    apply wait_without_deadline_never_raises.
  - intros seconds. unfold worker_get, Queue.get. simpl.
    by apply wait_forever.
  - intros seconds Hs. unfold bounded_get, Queue.get.
    cbn [Queue.block Queue.timeout fmap option_fmap option_map].
    apply wait_deadline_raises; [done|lia].
  - reflexivity.
Qed.

(** * Candidate enumeration *)

Lemma set_as_union (elems : list string) (acc : gset string) :
  foldl (λ acc x, acc ∪ {[x]}) acc elems = acc ∪ list_to_set elems.
Proof.
  revert acc. induction elems as [|x l IH]; intros acc; simpl.
  - by rewrite (right_id_L ∅ (∪)).
  - by rewrite IH, (assoc_L (∪)).
Qed.

Lemma find_matching_files_elem objects_filter prefixes k :
  k ∈ find_matching_files objects_filter prefixes
  ↔ ∃ p, p ∈ prefixes ∧ k ∈ objects_filter p.
Proof.
  unfold find_matching_files, Enumerator.set, Enumerator.listed.
  rewrite set_as_union, elem_of_union, elem_of_list_to_set, list_elem_of_bind.
  split.
  - intros [H|(p & ? & ?)]; [by apply elem_of_empty in H|]. eauto.
  - intros (p & ? & ?). right. eauto.
Qed.

Lemma deduplicated_union_elem objects_filter prefixes k :
  k ∈ deduplicated_union objects_filter prefixes
  ↔ ∃ p, p ∈ prefixes ∧ k ∈ objects_filter p.
Proof.
  unfold deduplicated_union. rewrite elem_of_union_list. split.
  - intros (X & HX & Hk). apply list_elem_of_fmap in HX as (p & -> & Hp).
    exists p. split; [done|]. by apply elem_of_list_to_set in Hk.
  - intros (p & Hp & Hk). exists (list_to_set (objects_filter p)). split.
    + apply list_elem_of_fmap. eauto.
    + by apply elem_of_list_to_set.
Qed.

(** * The run *)

Lemma loop_body_stop guess_type keep vb dr w :
  loop_body guess_type keep vb dr (Got None) w = (Break, w).
Proof. reflexivity. Qed.

Lemma loop_body_key guess_type keep vb dr k w :
  loop_body guess_type keep vb dr (Got (Some k)) w
    = (flow_of (process_key guess_type keep vb dr k w).1,
       exec (process_key guess_type keep vb dr k) w).
Proof.
  unfold loop_body, uncaught, exec.
  by destruct (process_key guess_type keep vb dr k w) as [[[]|e] w'].
Qed.

(** How a visit ends depends on the key and on the bucket alone. *)
Lemma process_key_result guess_type keep vb dr k w :
  (process_key guess_type keep vb dr k w).1
    = visit_result k (w_objects w !! k).
Proof.
  unfold visit_result. destruct (Py.endswith k "/") eqn:Hd.
  { by rewrite process_key_directory. }
  destruct (w_objects w !! k) as [o|] eqn:Hk.
  2:{ by rewrite process_key_missing. }
  destruct (Py.truthy (guess_type k)) eqn:Hg.
  2:{ by rewrite (process_key_unguessable _ _ vb dr k o). }
  destruct (decide (content_type o = Some (Py.chars (guess_type k)))).
  - by rewrite (process_key_match _ _ vb dr k o).
  - by rewrite (process_key_mismatch _ _ vb dr k o).
Qed.

Lemma keys_of_app l1 l2 : keys_of (l1 ++ l2) = (keys_of l1 ++ keys_of l2)%list.
Proof. apply omap_app. Qed.

Lemma keys_of_some (ks : list string) : keys_of (Some <$> ks) = ks.
Proof. induction ks as [|k ks IH]; simpl; [done|]. by f_equal. Qed.

Lemma keys_of_stops n : keys_of (replicate n None) = [].
Proof. by induction n. Qed.

Lemma stops_app l1 l2 : stops (l1 ++ l2) = (stops l1 + stops l2)%nat.
Proof. unfold stops. by rewrite List.filter_app, length_app. Qed.

Lemma stops_some (ks : list string) : stops (Some <$> ks) = 0%nat.
Proof. by induction ks. Qed.

Lemma stops_replicate n : stops (replicate n None) = n.
Proof. induction n as [|n IH]; [done|]. unfold stops in *. simpl. by f_equal. Qed.

Lemma running_finish ps i :
  ps !! i = Some Running →
  S (running (<[i := Finished]> ps)) = running ps.
Proof.
  revert i. induction ps as [|p ps IH]; intros [|i] Hi; simpl in *; try done.
  - by injection Hi as ->.
  - unfold running in *. simpl. destruct p; simpl; [f_equal|..]; by apply IH.
Qed.

Lemma finished_finish ps i :
  ps !! i = Some Running →
  finished (<[i := Finished]> ps) = S (finished ps).
Proof.
  revert i. induction ps as [|p ps IH]; intros [|i] Hi; simpl in *; try done.
  - by injection Hi as ->.
  - unfold finished in *. simpl. destruct p; simpl; [|f_equal|]; by apply IH.
Qed.

Lemma finished_dead ps i :
  ps !! i = Some Running →
  finished (<[i := Dead]> ps) = finished ps.
Proof.
  revert i. induction ps as [|p ps IH]; intros [|i] Hi; simpl in *; try done.
  - by injection Hi as ->.
  - unfold finished in *. simpl. destruct p; simpl; [|f_equal|]; by apply IH.
Qed.

Lemma finished_replicate n : finished (replicate n Running) = 0%nat.
Proof. induction n as [|n IH]; [done|]. unfold finished in *. by simpl. Qed.

Lemma running_plus_finished ps :
  none_dead ps → (running ps + finished ps)%nat = length ps.
Proof.
  induction 1 as [|p ps Hp _ IH]; [done|].
  unfold running, finished in *. destruct p; simpl; try done; lia.
Qed.

Lemma none_dead_insert ps i p :
  p ≠ Dead → none_dead ps → none_dead (<[i := p]> ps).
Proof.
  intros Hp Hps. apply Forall_forall. intros q Hq.
  apply list_elem_of_lookup in Hq as [j Hj].
  destruct (decide (i = j)) as [->|Hne].
  - destruct (decide (j < length ps)%nat) as [Hlt|Hge].
    + rewrite list_lookup_insert_eq in Hj by done. by injection Hj as <-.
    + rewrite list_insert_ge in Hj by lia.
      eapply (proj1 (Forall_forall _ _) Hps), list_elem_of_lookup. eauto.
  - rewrite list_lookup_insert_ne in Hj by done.
    eapply (proj1 (Forall_forall _ _) Hps), list_elem_of_lookup. eauto.
Qed.

Lemma running_some ps :
  (0 < running ps)%nat → ∃ i, ps !! i = Some Running.
Proof.
  induction ps as [|p ps IH]; unfold running in *; simpl; [lia|].
  destruct p; simpl.
  - intros _. by exists 0%nat.
  - intros H. destruct (IH H) as [i Hi]. by exists (S i).
  - intros H. destruct (IH H) as [i Hi]. by exists (S i).
Qed.

Lemma running_none ps :
  none_dead ps → running ps = 0%nat → ps = replicate (length ps) Finished.
Proof.
  induction 1 as [|p ps Hp _ IH]; unfold running in *; simpl; [done|].
  destruct p; simpl; [done| |done]. intros H. f_equal. by apply IH.
Qed.

Lemma running_replicate n : running (replicate n Running) = n.
Proof. induction n as [|n IH]; [done|]. unfold running in *. simpl. by f_equal. Qed.

Lemma count_NoDup (k : string) (l : list string) :
  NoDup l →
  (length (List.filter (λ x, bool_decide (x = k)) l) ≤ 1)%nat
  ∧ (k ∈ l → length (List.filter (λ x, bool_decide (x = k)) l) = 1%nat).
Proof.
  induction 1 as [|x l Hx _ [IHle IHin]]; simpl.
  - split; [lia|]. by intros ?%elem_of_nil.
  - destruct (bool_decide_reflect (x = k)) as [->|Hne]; simpl.
    + assert (Hzero : length (List.filter (λ x, bool_decide (x = k)) l) = 0%nat).
      { destruct (List.filter _ l) as [|y l'] eqn:Hf; [done|]. exfalso.
        assert (Hy : List.In y (List.filter (λ x, bool_decide (x = k)) l))
          by (rewrite Hf; by left).
        apply List.filter_In in Hy as [Hy1 Hy2].
        apply bool_decide_eq_true in Hy2 as ->.
        by apply Hx, list_elem_of_In. }
      rewrite Hzero. split; [lia|done].
    + split; [done|]. intros [?|?]%elem_of_cons; [done|]. by apply IHin.
Qed.

Section RunFacts.

Variable guess_type : string → option string.
Variable keep : bool.
Variable objects_filter : string → list string.
Variable args : Args.

Abbreviation step := (step guess_type keep args).
Abbreviation worker_step := (worker_step guess_type keep args).
Abbreviation start := (start objects_filter args).
Abbreviation invariant := (invariant objects_filter args).
Abbreviation visit :=
  (process_key guess_type keep (verbose args) (dryrun args)).

Lemma put_step_inv s s' :
  put_step s = Some s' →
  ∃ x rest, feed s = x :: rest
    ∧ s' = mkSystem rest (queue s ++ [x]) (procs s) (taken s) (world s).
Proof.
  unfold put_step. destruct (feed s) as [|x rest]; [done|].
  intros [= <-]. eauto.
Qed.

Lemma worker_step_inv i s s' :
  worker_step i s = Some s' →
  ∃ x rest, procs s !! i = Some Running ∧ queue s = x :: rest
    ∧ feed s' = feed s ∧ queue s' = rest
    ∧ taken s' = (taken s ++ [(i, x)])%list
    ∧ match x with
      | None => procs s' = <[i := Finished]> (procs s) ∧ world s' = world s
      | Some k =>
          procs s' = match visit_result k (w_objects (world s) !! k) with
                     | Returns _ => procs s
                     | Raises _ => <[i := Dead]> (procs s)
                     end
          ∧ world s' = exec (visit k) (world s)
      end.
Proof.
  unfold worker_step.
  destruct (procs s !! i) as [[]|]; [|done..].
  destruct (queue s) as [|[k|] rest]; [done|..].
  - rewrite loop_body_key, process_key_result. intros [= <-].
    exists (Some k), rest. simpl.
    by destruct (visit_result k (w_objects (world s) !! k)).
  - rewrite loop_body_stop. intros [= <-]. exists None, rest. done.
Qed.

Lemma dequeued_snoc s s' i x :
  taken s' = (taken s ++ [(i, x)])%list →
  dequeued s' = (dequeued s ++ [x])%list.
Proof. unfold dequeued. intros ->. by rewrite fmap_app. Qed.

Lemma invariant_start objects : invariant (start objects).
Proof.
  unfold invariant. repeat split; simpl.
  - by rewrite finished_replicate.
  - by rewrite length_replicate.
Qed.

Lemma invariant_step s s' : invariant s → step s s' → invariant s'.
Proof.
  intros (Hitems & Hstops & Hlen) [[|i] Hstep]; simpl in Hstep.
  - apply put_step_inv in Hstep as (x & rest & Hfeed & ->).
    unfold invariant, dequeued in *. simpl. rewrite Hfeed in Hitems.
    repeat split; [|done..]. by rewrite <- Hitems, <- !app_assoc.
  - apply worker_step_inv in Hstep
      as (x & rest & Hi & Hq & Hfeed & Hq' & Htaken & Hx).
    apply dequeued_snoc in Htaken.
    unfold invariant. rewrite Htaken, Hq', Hfeed.
    rewrite Hq in Hitems. split; [by rewrite <- Hitems, <- !app_assoc|].
    rewrite stops_app.
    destruct x as [k|]; destruct Hx as [-> _].
    + unfold stops at 2. simpl.
      destruct (visit_result k (w_objects (world s) !! k)).
      * split; [lia|done].
      * rewrite (finished_dead _ _ Hi), length_insert. split; [lia|done].
    + rewrite (finished_finish _ _ Hi), length_insert. split; [|done].
      unfold stops at 2. simpl. lia.
Qed.

Lemma invariant_reachable objects s :
  rtc step (start objects) s → invariant s.
Proof.
  revert s. apply rtc_ind_r.
  - apply invariant_start.
  - intros y z _ Hstep IH. by apply (invariant_step y).
Qed.

Lemma stops_puts : stops (puts objects_filter args) = pool args.
Proof.
  unfold puts. by rewrite stops_app, stops_some, stops_replicate.
Qed.

Lemma keys_of_puts :
  keys_of (puts objects_filter args) = candidates objects_filter args.
Proof.
  unfold puts. by rewrite keys_of_app, keys_of_some, keys_of_stops, app_nil_r.
Qed.

Lemma candidates_NoDup : NoDup (candidates objects_filter args).
Proof. apply NoDup_elements. Qed.

Lemma step_remaining s s' : step s s' → (remaining s' < remaining s)%nat.
Proof.
  intros [[|i] Hstep]; simpl in Hstep; unfold remaining.
  - apply put_step_inv in Hstep as (x & rest & Hfeed & ->). simpl.
    rewrite Hfeed, length_app. simpl. lia.
  - apply worker_step_inv in Hstep as (x & rest & _ & Hq & -> & -> & _).
    rewrite Hq. simpl. lia.
Qed.

Lemma nsteps_remaining n s s' :
  nsteps step n s s' → (n + remaining s' ≤ remaining s)%nat.
Proof.
  induction 1 as [|n x y z Hstep _ IH]; [done|].
  apply step_remaining in Hstep. lia.
Qed.

Lemma remaining_start objects :
  remaining (start objects)
    = (2 * (length (candidates objects_filter args) + pool args))%nat.
Proof.
  unfold remaining, start, puts. simpl.
  rewrite length_app, length_fmap, length_replicate. lia.
Qed.

Lemma worker_step_progress i s x rest :
  procs s !! i = Some Running → queue s = x :: rest →
  ∃ s', worker_step i s = Some s'.
Proof.
  intros Hi Hq. unfold worker_step. rewrite Hi, Hq.
  destruct (loop_body _ _ _ _ _ _) as [flow w]. eauto.
Qed.

Lemma running_lookup ps i :
  ps !! i = Some Running → (0 < running ps)%nat.
Proof. intros Hi. pose proof (running_finish ps i Hi). lia. Qed.

(** In every state either somebody can move or nobody can. *)
Lemma move_or_stuck s : red step s ∨ nf step s.
Proof.
  destruct (feed s) as [|x rest] eqn:Hf.
  2:{ left. eexists. exists Coordinator. simpl. unfold put_step.
      by rewrite Hf. }
  assert (Hput : put_step s = None) by (unfold put_step; by rewrite Hf).
  destruct (queue s) as [|x rest] eqn:Hq.
  { right. intros [s' [[|i] Hs']]; simpl in Hs'; [congruence|].
    apply worker_step_inv in Hs' as (? & ? & _ & ? & _). congruence. }
  destruct (decide (0 < running (procs s))%nat) as [Hr|Hr].
  - left. apply running_some in Hr as [i Hi].
    destruct (worker_step_progress i s x rest Hi Hq) as [s' Hs'].
    exists s'. by exists (FixWorker i).
  - right. intros [s' [[|i] Hs']]; simpl in Hs'; [congruence|].
    apply worker_step_inv in Hs' as (? & ? & Hi & _).
    by apply running_lookup in Hi.
Qed.

(** From every state the run can be carried on until nobody can move. *)
Lemma can_finish m s :
  (remaining s ≤ m)%nat → ∃ s', rtc step s s' ∧ nf step s'.
Proof.
  revert s. induction m as [|m IH]; intros s Hm.
  - destruct (move_or_stuck s) as [[s1 Hs1]|Hnf]; [|by exists s].
    apply step_remaining in Hs1. lia.
  - destruct (move_or_stuck s) as [[s1 Hs1]|Hnf]; [|by exists s].
    pose proof (step_remaining _ _ Hs1) as Hlt.
    destruct (IH s1) as (s' & Hrtc & Hnf); [lia|].
    exists s'. split; [|done]. by eapply rtc_l.
Qed.

(** A state from which no actor can move, in a run with a worker. *)
Lemma stuck_complete s :
  invariant s → none_dead (procs s) → (1 ≤ pool args)%nat → nf step s →
  feed s = [] ∧ queue s = []
  ∧ procs s = replicate (pool args) Finished
  ∧ dequeued s = puts objects_filter args.
Proof.
  intros (Hitems & Hfin & Hlen) Hnd Hpool Hnf.
  pose proof (running_plus_finished _ Hnd) as Hstops.
  rewrite Hfin, Hlen in Hstops.
  assert (Hfeed : feed s = []).
  { destruct (feed s) as [|x rest] eqn:Hf; [done|]. exfalso. apply Hnf.
    eexists. exists Coordinator. simpl. unfold put_step. by rewrite Hf. }
  rewrite Hfeed, app_nil_r in Hitems.
  pose proof stops_puts as Hsp. rewrite <- Hitems, stops_app in Hsp.
  assert (Hq : queue s = []).
  { destruct (queue s) as [|x rest] eqn:Hqs; [done|]. exfalso.
    destruct (decide (0 < running (procs s))%nat) as [Hr|Hr].
    - apply running_some in Hr as [i Hi].
      destruct (worker_step_progress i s x rest Hi Hqs) as [s' Hs'].
      apply Hnf. exists s'. by exists (FixWorker i).
    - assert (Hlast : ∃ front, puts objects_filter args
                               = (front ++ [None])%list).
      { unfold puts. destruct (pool args) as [|n]; [lia|].
        exists ((Some <$> candidates objects_filter args)
                  ++ replicate n None)%list.
        rewrite <- app_assoc. f_equal.
        by rewrite <- replicate_S_end. }
      destruct Hlast as [front Hfront].
      destruct (exists_last (l := x :: rest)) as (q' & y & Hqy); [done|].
      rewrite Hqy in Hitems, Hsp. rewrite Hfront, app_assoc in Hitems.
      apply app_inj_tail in Hitems as [_ ->].
      rewrite stops_app in Hsp. unfold stops at 3 in Hsp. simpl in Hsp. lia. }
  rewrite Hq in *. rewrite app_nil_r in Hitems.
  unfold stops at 2 in Hsp. simpl in Hsp.
  repeat split; [done..| |done].
  rewrite <- Hlen. apply running_none; [done|]. lia.
Qed.


Lemma dequeued_keys_prefix s :
  invariant s →
  candidates objects_filter args
    = (dequeued_keys s ++ keys_of (queue s ++ feed s))%list.
Proof.
  intros (Hitems & _). unfold dequeued_keys.
  by rewrite <- keys_of_app, Hitems, keys_of_puts.
Qed.

End RunFacts.

(** * Dry run *)

Section DryRun.

Variable guess_type : string → option string.
Variable keep : bool.

(** What one visit of a key does to the world, whatever the branch. *)
Lemma visit_effects vb dr k w :
  let w' := exec (process_key guess_type keep vb dr k) w in
  w_stdout w'
    = (w_stdout w ++ (reports guess_type vb k (w_objects w !! k)).1)%list
  ∧ w_stderr w'
    = (w_stderr w ++ (reports guess_type vb k (w_objects w !! k)).2)%list
  ∧ w_bucket w' = w_bucket w
  ∧ (∀ j, j ≠ k → w_objects w' !! j = w_objects w !! j)
  ∧ (dr = true →
     w_objects w' = w_objects w
     ∧ List.filter is_copy (w_calls w') = List.filter is_copy (w_calls w)).
Proof.
  unfold exec, reports.
  destruct (Py.endswith k "/") eqn:Hd.
  { rewrite process_key_directory by done.
    destruct (w_objects w !! k); simpl;
      rewrite List.filter_app, !app_nil_r; done. }
  destruct (w_objects w !! k) as [o|] eqn:Hk.
  2:{ rewrite process_key_missing by done. simpl.
      rewrite List.filter_app, !app_nil_r. done. }
  destruct (Py.truthy (guess_type k)) eqn:Hg; simpl.
  2:{ rewrite (process_key_unguessable _ _ vb dr k o) by done. simpl.
      rewrite List.filter_app, !app_nil_r. done. }
  destruct (bool_decide_reflect
              (content_type o = Some (Py.chars (guess_type k)))) as [Hc|Hc].
  { rewrite (process_key_match _ _ vb dr k o) by done. simpl.
    rewrite List.filter_app, !app_nil_r. by destruct vb. }
  rewrite (process_key_mismatch _ _ vb dr k o) by done.
  cbn [snd fst w_stdout w_stderr w_bucket w_objects w_calls].
  rewrite app_nil_r. split; [done|]. split; [done|]. split; [done|]. split.
  - destruct dr; [done|]. intros j Hj. unfold S3.copy_from.
    cbn [Key copy_call key]. by rewrite lookup_alter_ne.
  - intros ->. split; [done|].
    rewrite !List.filter_app. simpl. by rewrite !app_nil_r.
Qed.

Variable args : Args.

Abbreviation dry := (with_dryrun true args).
Abbreviation wet := (with_dryrun false args).

Lemma alike_step a d n :
  alike d n →
  let d' := default d (step_actor guess_type keep dry a d) in
  let n' := default n (step_actor guess_type keep wet a n) in
  alike d' n'
  ∧ w_objects (world d') = w_objects (world d)
  ∧ List.filter is_copy (w_calls (world d'))
    = List.filter is_copy (w_calls (world d)).
Proof.
  intros Hdn. pose proof Hdn as (Hf & Hq & Hp & Hout & Herr & Hnd & Hobj).
  destruct a as [|i]; simpl.
  - unfold put_step. rewrite Hf. destruct (feed n) as [|x rest] eqn:Hfn.
    { simpl. done. }
    simpl. split; [|done]. unfold alike. simpl. rewrite Hq.
    rewrite <- app_assoc. simpl. done.
  - unfold worker_step. rewrite Hp, Hq.
    destruct (procs n !! i) as [[]|]; try (simpl; split; done).
    destruct (queue n) as [|[k|] rest] eqn:Hqn; try (simpl; split; done).
    rewrite !loop_body_key, !process_key_result.
    assert (Hsame : w_objects (world d) !! k = w_objects (world n) !! k).
    { apply Hobj. simpl. by left. }
    rewrite Hsame.
    cbn [verbose dryrun with_dryrun].
    pose proof (visit_effects (verbose args) true k (world d))
      as (Hd1 & Hd2 & _ & _ & Hd5).
    pose proof (visit_effects (verbose args) false k (world n))
      as (Hn1 & Hn2 & _ & Hn4 & _).
    destruct (Hd5 eq_refl) as [Hd6 Hd7]. cbv zeta in *.
    simpl in Hnd. apply NoDup_cons in Hnd as [Hk Hnd].
    cbn [default from_option id world feed queue procs].
    split; [|done]. unfold alike. cbn [world feed queue procs].
    rewrite Hd1, Hd2, Hn1, Hn2, Hout, Herr, Hsame, Hd6.
    repeat split; try done.
    intros j Hj. rewrite Hn4.
    + apply Hobj. simpl. by right.
    + intros ->. done.
Qed.

Lemma alike_run schedule d n :
  alike d n →
  let d' := run guess_type keep dry schedule d in
  let n' := run guess_type keep wet schedule n in
  alike d' n'
  ∧ w_objects (world d') = w_objects (world d)
  ∧ List.filter is_copy (w_calls (world d'))
    = List.filter is_copy (w_calls (world d)).
Proof.
  revert d n. induction schedule as [|a schedule IH]; intros d n Hdn.
  - done.
  - destruct (alike_step a d n Hdn) as (Hstep & Hobj & Hcalls).
    destruct (IH _ _ Hstep) as (Hrun & Hobj' & Hcalls').
    unfold run in *. simpl. cbv zeta in *.
    split; [done|]. split; congruence.
Qed.

Lemma reachable_run s0 s :
  rtc (step guess_type keep args) s0 s →
  ∃ schedule, run guess_type keep args schedule s0 = s.
Proof.
  revert s. apply rtc_ind_r.
  - by exists [].
  - intros y z _ [a Ha] [schedule <-]. exists (schedule ++ [a])%list.
    unfold run in *. rewrite foldl_app. simpl. by rewrite Ha.
Qed.

End DryRun.

Lemma run_reachable guess_type keep args schedule s :
  rtc (step guess_type keep args) s (run guess_type keep args schedule s).
Proof.
  revert s. induction schedule as [|a schedule IH]; intros s; [done|].
  unfold run in *. simpl.
  destruct (step_actor guess_type keep args a s) as [s'|] eqn:Hs'; simpl.
  - eapply rtc_l; [by exists a|]. apply IH.
  - apply IH.
Qed.

Lemma with_dryrun_same args b : dryrun args = b → with_dryrun b args = args.
Proof. destruct args. simpl. by intros ->. Qed.

(** C2: in a run with the dry-run flag on, under any schedule, no copy
    is ever issued and the bucket stays as it was, object for object;
    and both streams carry, line for line, what the run without the flag
    writes under the same schedule. *)
Theorem dry_run_mutates_nothing_and_reports_the_same
    guess_type keep objects_filter args objects schedule :
  dryrun args = true →
  let d := run guess_type keep args schedule
             (start objects_filter args objects) in
  let n := run guess_type keep (with_dryrun false args) schedule
             (start objects_filter (with_dryrun false args) objects) in
  List.filter is_copy (w_calls (world d)) = []
  ∧ w_objects (world d) = objects
  ∧ w_stdout (world d) = w_stdout (world n)
  ∧ w_stderr (world d) = w_stderr (world n)
  ∧ ∀ s, rtc (step guess_type keep args)
           (start objects_filter args objects) s →
         List.filter is_copy (w_calls (world s)) = []
         ∧ w_objects (world s) = objects.
Proof.
  intros Hdry d n.
  assert (Hstart : alike (start objects_filter (with_dryrun true args) objects)
                     (start objects_filter (with_dryrun false args) objects)).
  { unfold alike, start, puts, candidates, pool. simpl.
    repeat split; try done.
    rewrite keys_of_app, keys_of_some, keys_of_stops, app_nil_r.
    apply NoDup_elements. }
  assert (Hall : ∀ sch,
            let d := run guess_type keep args sch
                       (start objects_filter args objects) in
            let n := run guess_type keep (with_dryrun false args) sch
                       (start objects_filter (with_dryrun false args) objects) in
            List.filter is_copy (w_calls (world d)) = []
            ∧ w_objects (world d) = objects
            ∧ w_stdout (world d) = w_stdout (world n)
            ∧ w_stderr (world d) = w_stderr (world n)).
  { intros sch.
    destruct (alike_run guess_type keep args sch _ _ Hstart)
      as ((_ & _ & _ & Hout & Herr & _) & Hobj & Hcalls).
    rewrite (with_dryrun_same args true Hdry) in *. done. }
  destruct (Hall schedule) as (H1 & H2 & H3 & H4).
  repeat split; try done.
  - destruct (reachable_run guess_type keep args _ _ H) as [sch <-].
    by destruct (Hall sch) as (? & _).
  - destruct (reachable_run guess_type keep args _ _ H) as [sch <-].
    by destruct (Hall sch) as (_ & ? & _).
Qed.

(** C3: the candidate set built by the enumeration is the union, without
    duplicates, of the keys listed under each prefix: a key is a candidate
    exactly when some prefix lists it, the coordinator meets every
    candidate once, and in no state of a run has a key been dequeued more
    than once, under however many prefixes it is listed. *)
Theorem candidates_are_the_deduplicated_union objects_filter args :
  let listed_under := λ k, ∃ p, p ∈ prefixes args ∧ k ∈ objects_filter p in
  find_matching_files objects_filter (prefixes args)
    = deduplicated_union objects_filter (prefixes args)
  ∧ (∀ k, k ∈ find_matching_files objects_filter (prefixes args)
          ↔ listed_under k)
  ∧ NoDup (candidates objects_filter args)
  ∧ (∀ k, k ∈ candidates objects_filter args ↔ listed_under k)
  ∧ (∀ guess_type keep objects s k,
       rtc (step guess_type keep args)
         (start objects_filter args objects) s →
       (times_dequeued k s ≤ 1)%nat).
Proof.
  intros listed_under. split.
  { apply set_eq. intros k.
    by rewrite find_matching_files_elem, deduplicated_union_elem. }
  split; [apply find_matching_files_elem|].
  split; [apply NoDup_elements|].
  split.
  { intros k. unfold candidates. rewrite elem_of_elements.
    apply find_matching_files_elem. }
  intros guess_type keep objects s k Hreach.
  apply invariant_reachable in Hreach as Hinv.
  pose proof (dequeued_keys_prefix objects_filter args s Hinv) as Hprefix.
  pose proof (candidates_NoDup objects_filter args) as Hnodup.
  unfold times_dequeued. apply count_NoDup.
  rewrite Hprefix in Hnodup. by apply NoDup_app in Hnodup as [? _].
Qed.

(** * A listed key that is gone *)



(** * The scenarios, evaluated *)

Example scenario_png_is_rewritten :
  let w := exec (process_key Sample.guess_type false false false "a.png")
             Sample.w0 in
  w_stdout w = ["a.png: Current content type (text/plain) does not match expected (image/png); fixing"]
  ∧ w_stderr w = []
  ∧ content_type <$> (w_objects w !! "a.png") = Some (Some "image/png").
Proof. vm_compute. done. Qed.

Example scenario_css_matches :
  let quiet := exec (process_key Sample.guess_type false false false "b.css")
                 Sample.w0 in
  let loud := exec (process_key Sample.guess_type false true false "b.css")
                Sample.w0 in
  w_stdout quiet = [] ∧ w_calls quiet = [OpObject "b.css"; OpGet "b.css" AContentType]
  ∧ w_stdout loud = ["b.css: Matches expected content type"].
Proof. vm_compute. done. Qed.

Example scenario_unknown_extension :
  let w := exec (process_key Sample.guess_type false false false
                   "weird.unknownext") Sample.w0 in
  w_stderr w = ["weird.unknownext: Could not guess content type"]
  ∧ List.filter is_copy (w_calls w) = [].
Proof. vm_compute. done. Qed.

Example scenario_two_prefixes :
  Enumerator.listed Sample.objects_filter [""; "dir/"]
    = ["a.png"; "b.css"; "dir/"; "dir/report.txt"; "weird.unknownext";
       "dir/"; "dir/report.txt"]
  ∧ length (candidates Sample.objects_filter Sample.args) = 5%nat.
Proof. vm_compute. done. Qed.

Example scenario_run_completes :
  let s := run Sample.guess_type false Sample.args Sample.schedule
             (start Sample.objects_filter Sample.args Sample.objects) in
  feed s = [] ∧ queue s = [] ∧ procs s = [Finished; Finished]
  ∧ length (dequeued_keys s) = 5%nat.
Proof. vm_compute. done. Qed.

(** * The statements at concrete inputs *)

Lemma fix_issues_one_replacing_self_copy_witness :
  w_objects Sample.w0 !! "dir/report.txt" = Some Sample.report
  ∧ Py.endswith "dir/report.txt" "/" = false
  ∧ Sample.guess_type "dir/report.txt" = Some "text/plain"
  ∧ "text/plain" ≠ ""
  ∧ content_type Sample.report ≠ Some "text/plain"
  ∧ ∃ c,
      List.filter is_copy
        (w_calls (exec (process_key Sample.guess_type false false false
                          "dir/report.txt") Sample.w0))
        = [OpCopyFrom c]
      ∧ CopySource c = "assets/dir/report.txt"
      ∧ ContentType c = "text/plain"
      ∧ Metadata c !! "Content-Type" = Some "text/plain"
      ∧ Metadata c !! "Content-Disposition" = Some "attachment"
      ∧ Metadata c !! "owner" = Some "ops".
Proof.
  assert (H1 : w_objects Sample.w0 !! "dir/report.txt" = Some Sample.report)
    by (vm_compute; reflexivity).
  assert (H2 : Py.endswith "dir/report.txt" "/" = false)
    by (vm_compute; reflexivity).
  assert (H3 : Sample.guess_type "dir/report.txt" = Some "text/plain")
    by (vm_compute; reflexivity).
  assert (H4 : "text/plain" ≠ "") by discriminate.
  assert (H5 : content_type Sample.report ≠ Some "text/plain")
    by discriminate.
  repeat (split; [assumption|]).
  destruct (fix_issues_one_replacing_self_copy Sample.guess_type false false
              "dir/report.txt" Sample.report Sample.w0 "text/plain"
              H1 H2 H3 H4 H5)
    as (c & Hcalls & _ & _ & Hsrc & _ & Hct & Hmt & Hmd & Hall).
  exists c. split; [exact Hcalls|]. split; [exact Hsrc|].
  split; [exact Hct|].
  split; [apply Hmt; vm_compute; eauto|].
  split; [apply (Hmd "attachment"); [reflexivity|discriminate]|].
  rewrite Hall. vm_compute. reflexivity.
Defined.

Lemma fix_metadata_frame_witness :
  w_objects Sample.w0 !! "a.png" = Some (Sample.obj "text/plain")
  ∧ Py.endswith "a.png" "/" = false
  ∧ Sample.guess_type "a.png" = Some "image/png"
  ∧ "image/png" ≠ ""
  ∧ content_type (Sample.obj "text/plain") ≠ Some "image/png"
  ∧ ∃ reads c,
      w_calls (exec (process_key Sample.guess_type false false false "a.png")
                 Sample.w0)
        = (reads ++ [OpCopyFrom c])%list
      ∧ ContentType c = "image/png"
      ∧ Metadata c !! "Content-Type" = None
      ∧ Metadata c !! "Content-Disposition" = None.
Proof.
  assert (H1 : w_objects Sample.w0 !! "a.png" = Some (Sample.obj "text/plain"))
    by (vm_compute; reflexivity).
  assert (H2 : Py.endswith "a.png" "/" = false) by (vm_compute; reflexivity).
  assert (H3 : Sample.guess_type "a.png" = Some "image/png")
    by (vm_compute; reflexivity).
  assert (H4 : "image/png" ≠ "") by discriminate.
  assert (H5 : content_type (Sample.obj "text/plain") ≠ Some "image/png")
    by discriminate.
  repeat (split; [assumption|]).
  destruct (fix_metadata_frame Sample.guess_type false false "a.png"
              (Sample.obj "text/plain") Sample.w0 "image/png" H1 H2 H3 H4 H5)
    as (reads & c & Hcalls & _ & Hct & _ & Hnone & Hcd).
  exists reads, c. split; [exact Hcalls|]. split; [exact Hct|].
  split; [apply Hnone; reflexivity|].
  rewrite Hcd; reflexivity.
Defined.

Lemma missing_object_ends_the_worker_witness :
  w_objects Sample.w0 !! "gone.png" = None
  ∧ Py.endswith "gone.png" "/" = false
  ∧ loop_body Sample.guess_type false false false (Got (Some "gone.png"))
      Sample.w0
    = (Uncaught (ClientError "gone.png"),
       mkWorld "assets" Sample.objects [] []
         [OpObject "gone.png"; OpGet "gone.png" AContentType])
  ∧ check_headers Sample.guess_type false false false
      [Got (Some "gone.png"); Got (Some "a.png"); Got None] Sample.w0
    = (Died (ClientError "gone.png"),
       mkWorld "assets" Sample.objects [] []
         [OpObject "gone.png"; OpGet "gone.png" AContentType]).
Proof.
  assert (H1 : w_objects Sample.w0 !! "gone.png" = None)
    by (vm_compute; reflexivity).
  assert (H2 : Py.endswith "gone.png" "/" = false)
    by (vm_compute; reflexivity).
  repeat (split; [assumption|]).
  destruct (missing_object_ends_the_worker Sample.guess_type false false
              false "gone.png" Sample.w0 H1 H2) as (_ & Hbody & Hloop & _).
  split; [exact Hbody|apply Hloop].
Defined.

Lemma directory_marker_is_skipped_silently_witness :
  Py.endswith "dir/" "/" = true
  ∧ loop_body Sample.guess_type false true false (Got (Some "dir/")) Sample.w0
    = (Continue, mkWorld "assets" Sample.objects [] [] [OpObject "dir/"])
  ∧ loop_body Sample.guess_type false true false (Got (Some "dir/"))
      Sample.empty
    = (Continue, mkWorld "assets" ∅ [] [] [OpObject "dir/"]).
Proof.
  assert (H1 : Py.endswith "dir/" "/" = true) by (vm_compute; reflexivity).
  split; [assumption|]. split.
  - exact (proj1 (directory_marker_is_skipped_silently Sample.guess_type false
                    true false "dir/" Sample.w0 H1)).
  - exact (proj1 (directory_marker_is_skipped_silently Sample.guess_type false
                    true false "dir/" Sample.empty H1)).
Defined.



Lemma fix_is_idempotent_witness :
  w_objects Sample.w0 !! "dir/report.txt" = Some Sample.report
  ∧ ∃ o1,
      let h := mkHandle "assets" "dir/report.txt" (Some Sample.report) in
      let w1 := exec (apply_fix true h Sample.report "text/plain")
                  Sample.w0 in
      w_objects w1 !! "dir/report.txt" = Some o1
      ∧ content_type o1 = Some "text/plain"
      ∧ let h1 := mkHandle "assets" "dir/report.txt" (Some o1) in
        w_objects (exec (apply_fix true h1 o1 "text/plain") w1)
          = w_objects w1.
Proof.
  assert (H1 : w_objects Sample.w0 !! "dir/report.txt" = Some Sample.report)
    by (vm_compute; reflexivity).
  split; [assumption|].
  destruct (fix_is_idempotent true "text/plain" "dir/report.txt"
              Sample.report Sample.w0 H1)
    as (o1 & Hget & Hct & _ & Hsame & _).
  exists o1. split; [exact Hget|]. split; [exact Hct|]. exact Hsame.
Defined.

Lemma dry_run_mutates_nothing_and_reports_the_same_witness :
  dryrun (with_dryrun true Sample.args) = true
  ∧ let d := run Sample.guess_type false (with_dryrun true Sample.args)
               Sample.schedule
               (start Sample.objects_filter (with_dryrun true Sample.args)
                  Sample.objects) in
    let n := run Sample.guess_type false
               (with_dryrun false (with_dryrun true Sample.args))
               Sample.schedule
               (start Sample.objects_filter
                  (with_dryrun false (with_dryrun true Sample.args))
                  Sample.objects) in
    List.filter is_copy (w_calls (world d)) = []
    ∧ w_objects (world d) = Sample.objects
    ∧ w_stdout (world d) = w_stdout (world n)
    ∧ w_stderr (world d) = w_stderr (world n).
Proof.
  assert (H1 : dryrun (with_dryrun true Sample.args) = true) by reflexivity.
  split; [assumption|].
  destruct (dry_run_mutates_nothing_and_reports_the_same Sample.guess_type
              false Sample.objects_filter (with_dryrun true Sample.args)
              Sample.objects Sample.schedule H1)
    as (Hc & Ho & Hout & Herr & _).
  cbv zeta. split; [exact Hc|]. split; [exact Ho|].
  split; [exact Hout|exact Herr].
Defined.

(** * More on one visit *)

Section VisitFacts.

Variable guess_type : string → option string.
Variable keep : bool.

Abbreviation process_key := (process_key guess_type keep).

(** The five ways through lines 47 to 86. *)
Lemma process_key_cases k w :
  Py.endswith k "/" = true
  ∨ (w_objects w !! k = None ∧ Py.endswith k "/" = false)
  ∨ (∃ o, w_objects w !! k = Some o ∧ Py.endswith k "/" = false
          ∧ Py.truthy (guess_type k) = false)
  ∨ (∃ o, w_objects w !! k = Some o ∧ Py.endswith k "/" = false
          ∧ Py.truthy (guess_type k) = true
          ∧ content_type o = Some (Py.chars (guess_type k)))
  ∨ (∃ o, w_objects w !! k = Some o ∧ Py.endswith k "/" = false
          ∧ Py.truthy (guess_type k) = true
          ∧ content_type o ≠ Some (Py.chars (guess_type k))).
Proof.
  destruct (Py.endswith k "/"); [by left|]. right.
  destruct (w_objects w !! k) as [o|]; [|by left]. right.
  destruct (Py.truthy (guess_type k)); [|left; by exists o]. right.
  destruct (decide (content_type o = Some (Py.chars (guess_type k))));
    [left|right]; by exists o.
Qed.

Lemma guess_truthy k e :
  guess_type k = Some e → e ≠ "" →
  Py.truthy (guess_type k) = true ∧ Py.chars (guess_type k) = e.
Proof.
  intros -> He. split; [|done]. simpl. by destruct (String.eqb_spec e "").
Qed.

(** X1: a key whose declared type is the inferred one is left alone: the
    object map and the error stream stay as they are, only the lookup and
    the read of the content type reach the bucket, and one line goes to
    standard output when, and only when, [verbose] is set. *)
Theorem match_is_left_alone vb dr k o w e :
  w_objects w !! k = Some o →
  Py.endswith k "/" = false →
  guess_type k = Some e → e ≠ "" →
  content_type o = Some e →
  let w' := exec (process_key vb dr k) w in
  w_objects w' = w_objects w
  ∧ w_stderr w' = w_stderr w
  ∧ w_stdout w'
    = (w_stdout w
       ++ (if vb then [k +:+ ": Matches expected content type"] else []))%list
  ∧ w_calls w' = (w_calls w ++ [OpObject k; OpGet k AContentType])%list.
Proof.
  intros Hk Hd Hg He Hc. destruct (guess_truthy k e Hg He) as [Ht Hch].
  unfold exec.
  rewrite (process_key_match guess_type keep vb dr k o) by (by rewrite ?Hch).
  done.
Qed.

(** X2: [verbose] changes nothing but match lines: with and without it a
    visit leaves the same objects, the same error stream and the same
    calls on the bucket, and standard output differs at most by the line
    of a match. *)
Theorem verbose_only_adds_match_lines dr k w :
  let quiet := exec (process_key false dr k) w in
  let loud := exec (process_key true dr k) w in
  w_objects loud = w_objects quiet
  ∧ w_stderr loud = w_stderr quiet
  ∧ w_calls loud = w_calls quiet
  ∧ (w_stdout loud = w_stdout quiet
     ∨ w_stdout quiet = w_stdout w
       ∧ w_stdout loud
         = (w_stdout w ++ [k +:+ ": Matches expected content type"])%list).
Proof.
  unfold exec.
  destruct (process_key_cases k w)
    as [Hd|[(Hk & Hd)|[(o & Hk & Hd & Hg)|[(o & Hk & Hd & Hg & Hc)
       |(o & Hk & Hd & Hg & Hc)]]]].
  - rewrite !process_key_directory by done. repeat split; try done. by left.
  - rewrite !process_key_missing by done. repeat split; try done. by left.
  - rewrite !(process_key_unguessable _ _ _ _ k o) by done.
    repeat split; try done. by left.
  - rewrite !(process_key_match _ _ _ _ k o) by done. simpl.
    repeat split; try done. right. by rewrite app_nil_r.
  - rewrite !(process_key_mismatch _ _ _ _ k o) by done.
    repeat split; try done. by left.
Qed.

(** One visit writes at most one line, the two streams together. *)
Lemma reports_length vb k found :
  (length (reports guess_type vb k found).1
   + length (reports guess_type vb k found).2 ≤ 1)%nat.
Proof.
  unfold reports. destruct found as [o|]; simpl; [|lia].
  destruct (Py.endswith k "/"); simpl; [lia|].
  destruct (Py.truthy (guess_type k)); simpl; [|lia].
  destruct (bool_decide _); simpl; [|lia]. destruct vb; simpl; lia.
Qed.

(** One visit keeps the key names of the bucket. *)
Lemma visit_dom vb dr k w :
  dom (w_objects (exec (process_key vb dr k) w)) = dom (w_objects w).
Proof.
  unfold exec.
  destruct (process_key_cases k w)
    as [Hd|[(Hk & Hd)|[(o & Hk & Hd & Hg)|[(o & Hk & Hd & Hg & Hc)
       |(o & Hk & Hd & Hg & Hc)]]]].
  - by rewrite process_key_directory.
  - by rewrite process_key_missing.
  - by rewrite (process_key_unguessable _ _ _ _ k o).
  - by rewrite (process_key_match _ _ _ _ k o).
  - rewrite (process_key_mismatch _ _ _ _ k o) by done.
    cbn [snd w_objects]. destruct dr; [done|]. unfold S3.copy_from.
    apply dom_alter_L.
Qed.

(** Every call of one visit is a call on the visited key. *)
Lemma visit_calls vb dr k w :
  ∃ new,
    w_calls (exec (process_key vb dr k) w) = (w_calls w ++ new)%list
    ∧ Forall (call_on guess_type (w_bucket w) k) new
    ∧ (length (List.filter is_copy new) ≤ 1)%nat.
Proof.
  unfold exec.
  destruct (process_key_cases k w)
    as [Hd|[(Hk & Hd)|[(o & Hk & Hd & Hg)|[(o & Hk & Hd & Hg & Hc)
       |(o & Hk & Hd & Hg & Hc)]]]].
  - rewrite process_key_directory by done. eexists. split; [done|].
    split; [|simpl; lia]. by repeat constructor.
  - rewrite process_key_missing by done.
    eexists. split; [done|]. split; [|simpl; lia]. by repeat constructor.
  - rewrite (process_key_unguessable _ _ _ _ k o) by done.
    eexists. split; [done|]. split; [|simpl; lia]. by repeat constructor.
  - rewrite (process_key_match _ _ _ _ k o) by done.
    eexists. split; [done|]. split; [|simpl; lia]. by repeat constructor.
  - rewrite (process_key_mismatch _ _ _ _ k o) by done.
    cbn [snd w_calls]. eexists. split; [done|].
    destruct dr.
    + split; [|simpl; lia]. by repeat constructor.
    + split.
      * apply Forall_app. split; [by repeat constructor|].
        apply Forall_app. split.
        { unfold fix_reads. destruct (Py.truthy (content_disposition o));
            by repeat constructor. }
        repeat constructor; done.
      * rewrite !List.filter_app, filter_is_copy_reads. simpl. lia.
Qed.

(** After a visit with [dryrun] off the visited object is settled. *)
Lemma visit_settles vb k w :
  settled guess_type k (w_objects (exec (process_key vb false k) w)).
Proof.
  unfold exec, settled.
  destruct (process_key_cases k w)
    as [Hd|[(Hk & Hd)|[(o & Hk & Hd & Hg)|[(o & Hk & Hd & Hg & Hc)
       |(o & Hk & Hd & Hg & Hc)]]]].
  - rewrite process_key_directory by done. simpl. congruence.
  - rewrite process_key_missing by done. simpl. congruence.
  - rewrite (process_key_unguessable _ _ _ _ k o) by done. simpl. congruence.
  - rewrite (process_key_match _ _ _ _ k o) by done. simpl. congruence.
  - rewrite (process_key_mismatch _ _ _ _ k o) by done.
    cbn [snd w_objects]. unfold S3.copy_from. cbn [Key copy_call key].
    intros o1. rewrite lookup_alter_eq, Hk. simpl. by intros [= <-].
Qed.

(** A visit of a settled object changes no object and issues no copy. *)
Lemma visit_of_settled vb dr k w :
  settled guess_type k (w_objects w) →
  w_objects (exec (process_key vb dr k) w) = w_objects w
  ∧ List.filter is_copy (w_calls (exec (process_key vb dr k) w))
    = List.filter is_copy (w_calls w).
Proof.
  intros Hs.
  destruct (process_key_cases k w)
    as [Hd|[(Hk & Hd)|[(o & Hk & Hd & Hg)|[(o & Hk & Hd & Hg & Hc)
       |(o & Hk & Hd & Hg & Hc)]]]]; unfold exec.
  - rewrite process_key_directory by done. simpl.
    by rewrite List.filter_app, app_nil_r.
  - rewrite process_key_missing by done. simpl.
    by rewrite List.filter_app, app_nil_r.
  - rewrite (process_key_unguessable _ _ _ _ k o) by done. simpl.
    by rewrite List.filter_app, app_nil_r.
  - rewrite (process_key_match _ _ _ _ k o) by done. simpl.
    by rewrite List.filter_app, app_nil_r.
  - by specialize (Hs o Hk Hd Hg).
Qed.

(** X16: a second visit of a key never copies: whatever the first visit
    did, with or without [dryrun], visiting the same key again leaves the
    objects as the first visit left them and adds no copy to the calls. *)
Theorem second_visit_never_copies vb dr k w :
  let w1 := exec (process_key vb dr k) w in
  let w2 := exec (process_key vb dr k) w1 in
  w_objects w2 = w_objects w1
  ∧ List.filter is_copy (w_calls w2) = List.filter is_copy (w_calls w1).
Proof.
  intros w1 w2. subst w1 w2. destruct dr.
  - destruct (visit_effects guess_type keep vb true k
                (exec (process_key vb true k) w)) as (_ & _ & _ & _ & H).
    exact (H eq_refl).
  - apply visit_of_settled, visit_settles.
Qed.

End VisitFacts.

(** * More on sequences of visits *)

Section VisitsFacts.

Variable guess_type : string → option string.
Variable keep : bool.
Variables vb dr : bool.

Abbreviation visit := (process_key guess_type keep vb dr).
Abbreviation visits := (visits guess_type keep vb dr).

Lemma visits_snoc ks k w :
  visits (ks ++ [k]) w = exec (visit k) (visits ks w).
Proof. unfold visits. by rewrite foldl_app. Qed.

Lemma visits_bucket ks w : w_bucket (visits ks w) = w_bucket w.
Proof.
  induction ks as [|k ks IH] using rev_ind; [done|].
  rewrite visits_snoc.
  destruct (visit_effects guess_type keep vb dr k (visits ks w))
    as (_ & _ & -> & _). done.
Qed.

Lemma visits_dom ks w : dom (w_objects (visits ks w)) = dom (w_objects w).
Proof.
  induction ks as [|k ks IH] using rev_ind; [done|].
  by rewrite visits_snoc, visit_dom.
Qed.

Lemma visits_frame ks w j :
  j ∉ ks → w_objects (visits ks w) !! j = w_objects w !! j.
Proof.
  induction ks as [|k ks IH] using rev_ind; [done|].
  intros Hj. rewrite visits_snoc.
  apply not_elem_of_app in Hj as [Hj1 Hj2].
  destruct (visit_effects guess_type keep vb dr k (visits ks w))
    as (_ & _ & _ & Hframe & _).
  rewrite Hframe; [by apply IH|]. intros ->. apply Hj2. by left.
Qed.

Lemma visits_lines ks w :
  (length (w_stdout (visits ks w)) + length (w_stderr (visits ks w))
   ≤ length (w_stdout w) + length (w_stderr w) + length ks)%nat.
Proof.
  induction ks as [|k ks IH] using rev_ind; [simpl; lia|].
  rewrite visits_snoc, length_app. simpl.
  destruct (visit_effects guess_type keep vb dr k (visits ks w))
    as (-> & -> & _).
  rewrite !length_app.
  pose proof (reports_length guess_type vb k (w_objects (visits ks w) !! k)).
  lia.
Qed.

Lemma visits_calls ks w :
  ∃ new,
    w_calls (visits ks w) = (w_calls w ++ new)%list
    ∧ Forall (λ op, ∃ k, k ∈ ks ∧ call_on guess_type (w_bucket w) k op) new
    ∧ (length (List.filter is_copy new) ≤ length ks)%nat.
Proof.
  induction ks as [|k ks (new & Hnew & Hall & Hlen)] using rev_ind.
  - exists []. split; [by rewrite app_nil_r|]. split; [constructor|simpl; lia].
  - rewrite visits_snoc.
    destruct (visit_calls guess_type keep vb dr k (visits ks w))
      as (more & Hmore & Hon & Hone).
    rewrite visits_bucket in Hon.
    exists (new ++ more)%list. split; [by rewrite Hmore, Hnew, app_assoc|].
    split.
    + apply Forall_app. split.
      * eapply Forall_impl; [exact Hall|]. intros op (k' & Hk' & Hop).
        exists k'. split; [|done]. apply elem_of_app. by left.
      * eapply Forall_impl; [exact Hon|]. intros op Hop.
        exists k. split; [|done]. apply elem_of_app. right. by left.
    + rewrite List.filter_app, !length_app. simpl. lia.
Qed.

Lemma settled_frame k j w :
  j ≠ k → settled guess_type j (w_objects w) →
  settled guess_type j (w_objects (exec (visit k) w)).
Proof.
  intros Hj Hs o. 
  destruct (visit_effects guess_type keep vb dr k w)
    as (_ & _ & _ & Hframe & _).
  rewrite Hframe by done. apply Hs.
Qed.

Lemma visits_noop ks w :
  (∀ k, k ∈ ks → settled guess_type k (w_objects w)) →
  w_objects (visits ks w) = w_objects w
  ∧ List.filter is_copy (w_calls (visits ks w))
    = List.filter is_copy (w_calls w).
Proof.
  induction ks as [|k ks IH] using rev_ind; [done|].
  intros Hall. rewrite visits_snoc.
  destruct IH as [Hobj Hcalls].
  { intros k' Hk'. apply Hall, elem_of_app. by left. }
  destruct (visit_of_settled guess_type keep vb dr k (visits ks w))
    as [Hobj' Hcalls'].
  { rewrite Hobj. apply Hall, elem_of_app. right. by left. }
  split; congruence.
Qed.

End VisitsFacts.

Lemma visits_settle guess_type keep vb ks w k :
  k ∈ ks →
  settled guess_type k (w_objects (visits guess_type keep vb false ks w)).
Proof.
  induction ks as [|k' ks IH] using rev_ind; [by intros ?%elem_of_nil|].
  intros Hk. rewrite visits_snoc.
  destruct (decide (k = k')) as [->|Hne]; [apply visit_settles|].
  apply settled_frame; [done|]. apply IH.
  apply elem_of_app in Hk as [?|Hk]; [done|].
  by apply list_elem_of_singleton in Hk.
Qed.

(** * More on the run *)

Section RunMore.

Variable guess_type : string → option string.
Variable keep : bool.
Variable objects_filter : string → list string.
Variable args : Args.
Variable objects : gmap string S3Object.

Abbreviation step := (step guess_type keep args).
Abbreviation s0 := (start objects_filter args objects).
Abbreviation keys := (candidates objects_filter args).
Abbreviation visits :=
  (visits guess_type keep (verbose args) (dryrun args)).

(** The world of a run is the world of the visits of the keys dequeued
    so far, in the order of their dequeue. *)
Lemma world_is_visits s :
  rtc step s0 s → world s = visits (dequeued_keys s) (world s0).
Proof.
  revert s. apply rtc_ind_r; [done|].
  intros y z _ [[|i] Hstep] IH; simpl in Hstep.
  - apply put_step_inv in Hstep as (x & rest & _ & ->). done.
  - apply worker_step_inv in Hstep
      as (x & rest & _ & _ & _ & _ & Htaken & Hx).
    apply dequeued_snoc in Htaken. unfold dequeued_keys.
    rewrite Htaken, keys_of_app.
    destruct x as [k|]; destruct Hx as [_ ->]; simpl.
    + rewrite visits_snoc. by rewrite IH.
    + by rewrite app_nil_r.
Qed.

Lemma dequeued_keys_candidates s k :
  rtc step s0 s → k ∈ dequeued_keys s → k ∈ keys.
Proof.
  intros Hreach Hk. apply invariant_reachable in Hreach.
  rewrite (dequeued_keys_prefix objects_filter args s Hreach).
  apply elem_of_app. by left.
Qed.

Lemma dequeued_keys_length s :
  rtc step s0 s → (length (dequeued_keys s) ≤ length keys)%nat.
Proof.
  intros Hreach. apply invariant_reachable in Hreach.
  rewrite (dequeued_keys_prefix objects_filter args s Hreach), length_app. lia.
Qed.

(** X3: a run writes at most one line per dequeued key, the two streams
    together, so never more lines than there are candidates. *)
Theorem run_writes_at_most_one_line_per_key s :
  rtc step s0 s →
  (length (w_stdout (world s)) + length (w_stderr (world s))
   ≤ length (dequeued_keys s))%nat
  ∧ (length (w_stdout (world s)) + length (w_stderr (world s))
     ≤ length keys)%nat.
Proof.
  intros Hreach. pose proof (dequeued_keys_length s Hreach) as Hlen.
  rewrite (world_is_visits s Hreach).
  pose proof (visits_lines guess_type keep (verbose args) (dryrun args)
                (dequeued_keys s) (world s0)) as Hlines.
  change (world s0) with (mkWorld (bucket args) objects [] [] []) in *.
  cbn [w_stdout w_stderr length] in Hlines. split; lia.
Qed.

(** X4: a run never creates or deletes an object, never leaves its
    bucket, and changes no object whose key has not been dequeued; an
    object whose key no prefix lists is as it was in every state. *)
Theorem run_touches_only_dequeued_candidates s :
  rtc step s0 s →
  dom (w_objects (world s)) = dom objects
  ∧ w_bucket (world s) = bucket args
  ∧ (∀ j, j ∉ dequeued_keys s → w_objects (world s) !! j = objects !! j)
  ∧ (∀ j, j ∉ keys → w_objects (world s) !! j = objects !! j).
Proof.
  intros Hreach. rewrite (world_is_visits s Hreach).
  split; [by rewrite visits_dom|]. split; [by rewrite visits_bucket|].
  assert (Hframe : ∀ j, j ∉ dequeued_keys s →
            w_objects (visits (dequeued_keys s) (world s0)) !! j
              = objects !! j).
  { intros j Hj. by rewrite visits_frame. }
  split; [done|]. intros j Hj. apply Hframe. intros Hin. apply Hj.
  by apply (dequeued_keys_candidates s).
Qed.

(** X5: every call a run makes on the bucket is a lookup, a read or a
    copy for a candidate key; every copy is a replacing copy of a
    candidate onto itself, in the bucket [get_bucket] returned for the
    arguments, with the type inferred from the key; and there are never
    more copies than dequeued keys. *)
Theorem every_call_is_on_a_candidate s :
  rtc step s0 s →
  Forall (λ op, ∃ k, k ∈ keys
                     ∧ call_on guess_type (name (main_bucket args)) k op)
    (w_calls (world s))
  ∧ (length (List.filter is_copy (w_calls (world s)))
     ≤ length (dequeued_keys s))%nat.
Proof.
  intros Hreach. rewrite (world_is_visits s Hreach).
  destruct (visits_calls guess_type keep (verbose args) (dryrun args)
              (dequeued_keys s) (world s0)) as (new & -> & Hall & Hlen).
  simpl. split; [|done].
  eapply Forall_impl; [exact Hall|]. intros op (k & Hk & Hop).
  exists k. split; [|done]. by apply (dequeued_keys_candidates s).
Qed.

(** While every candidate outside the directory markers is in the bucket,
    no visit raises and no worker dies. *)
Lemma none_dead_reachable s :
  all_stored keys objects → rtc step s0 s → none_dead (procs s).
Proof.
  intros Hall. revert s. apply rtc_ind_r.
  - simpl. apply Forall_forall. intros p Hp.
    apply elem_of_replicate in Hp as [-> _]. done.
  - intros y z Hreach [[|i] Hstep] IH; simpl in Hstep.
    + apply put_step_inv in Hstep as (x & rest & _ & ->). done.
    + pose proof (invariant_reachable _ _ _ _ _ _ Hreach) as Hinv.
      pose proof (dequeued_keys_prefix objects_filter args y Hinv) as Hpre.
      pose proof (world_is_visits y Hreach) as Hw.
      apply worker_step_inv in Hstep as (x & rest & _ & Hq & _ & _ & _ & Hx).
      destruct x as [k|]; destruct Hx as [-> _].
      2:{ by apply none_dead_insert. }
      assert (Hk : k ∈ keys).
      { rewrite Hpre, Hq. apply elem_of_app. right. simpl. by left. }
      unfold visit_result. destruct (Py.endswith k "/") eqn:Hd; [done|].
      destruct (Hall k Hk Hd) as [o Ho].
      assert (Hin : k ∈ dom (w_objects (world y))).
      { rewrite Hw, visits_dom. simpl. apply elem_of_dom. by exists o. }
      apply elem_of_dom in Hin as [o' ->]. done.
Qed.

Lemma dequeued_are_settled s :
  dryrun args = false → rtc step s0 s →
  ∀ k, k ∈ dequeued_keys s → settled guess_type k (w_objects (world s)).
Proof.
  intros Hdry Hreach k Hk.
  rewrite (world_is_visits s Hreach), Hdry. by apply visits_settle.
Qed.

Lemma complete_run_dequeues_all s :
  (1 ≤ workers args)%Z → all_stored keys objects →
  rtc step s0 s → nf step s →
  feed s = [] ∧ queue s = []
  ∧ procs s = replicate (pool args) Finished
  ∧ dequeued s = puts objects_filter args
  ∧ dequeued_keys s = keys.
Proof.
  intros HW Hall Hreach Hnf.
  assert (Hpool : (1 ≤ pool args)%nat) by (unfold pool, Py.xrange_len; lia).
  pose proof (invariant_reachable _ _ _ _ _ _ Hreach) as Hinv.
  pose proof (none_dead_reachable s Hall Hreach) as Hnd.
  destruct (stuck_complete guess_type keep objects_filter args s
              Hinv Hnd Hpool Hnf) as (Hf & Hq & Hp & Hd).
  repeat split; try done.
  unfold dequeued_keys. by rewrite Hd, keys_of_puts.
Qed.

Lemma complete_run_settles s :
  dryrun args = false → (1 ≤ workers args)%Z → all_stored keys objects →
  rtc step s0 s → nf step s →
  ∀ k, k ∈ keys → settled guess_type k (w_objects (world s)).
Proof.
  intros Hdry HW Hall Hreach Hnf k Hk.
  destruct (complete_run_dequeues_all s HW Hall Hreach Hnf)
    as (_ & _ & _ & _ & Hkeys).
  apply dequeued_are_settled; [done..|]. by rewrite Hkeys.
Qed.

Lemma settled_run_is_noop s :
  (∀ k, k ∈ keys → settled guess_type k objects) →
  rtc step s0 s →
  w_objects (world s) = objects
  ∧ List.filter is_copy (w_calls (world s)) = [].
Proof.
  intros Hall Hreach. rewrite (world_is_visits s Hreach).
  apply (visits_noop guess_type keep (verbose args) (dryrun args)
           (dequeued_keys s) (world s0)).
  intros k Hk. apply Hall. by apply (dequeued_keys_candidates s).
Qed.

(** X6: in every state of a run with [dryrun] off, every key dequeued
    so far is settled: if the bucket holds it, its name does not end with
    the separator and a type is inferred from the name, its declared type
    is the inferred one.  When the bucket holds every candidate that is
    not a directory marker and there is at least one worker, a run that
    has come to its end has dequeued every candidate, so every candidate
    is settled. *)
Theorem complete_run_settles_every_candidate s :
  dryrun args = false → rtc step s0 s →
  (∀ k o, k ∈ dequeued_keys s → w_objects (world s) !! k = Some o →
          Py.endswith k "/" = false → Py.truthy (guess_type k) = true →
          content_type o = Some (Py.chars (guess_type k)))
  ∧ ((1 ≤ workers args)%Z → all_stored keys objects → nf step s →
     dequeued_keys s = keys
     ∧ ∀ k o, k ∈ keys → w_objects (world s) !! k = Some o →
              Py.endswith k "/" = false → Py.truthy (guess_type k) = true →
              content_type o = Some (Py.chars (guess_type k))).
Proof.
  intros Hdry Hreach. split.
  - intros k o Hk. by apply dequeued_are_settled.
  - intros HW Hall Hnf. split.
    + by destruct (complete_run_dequeues_all s HW Hall Hreach Hnf)
        as (_ & _ & _ & _ & ?).
    + intros k o Hk. by apply complete_run_settles.
Qed.

(** X14: with at least one worker and a bucket that holds every candidate
    that is not a directory marker: the coordinator puts the candidate
    keys and then one stop signal per worker; whatever the interleaving, a
    run makes at most twice as many moves as there are items and can
    always be carried on until nobody can move; no worker dies; nobody
    can move only once every worker has returned, and then the queue is
    empty and the keys dequeued, all workers together, are the candidate
    keys, each exactly once. *)
Theorem stored_keys_are_dequeued_once_and_workers_return :
  (1 ≤ workers args)%Z →
  all_stored keys objects →
  let W := Z.to_nat (workers args) in
  puts objects_filter args = ((Some <$> keys) ++ replicate W None)%list
  ∧ NoDup keys
  ∧ (∀ n s, nsteps step n s0 s → (n ≤ 2 * (length keys + W))%nat)
  ∧ (∀ s, rtc step s0 s →
       (∀ k, times_dequeued k s ≤ 1)%nat
       ∧ none_dead (procs s)
       ∧ (∃ s', rtc step s s' ∧ nf step s')
       ∧ (nf step s →
            feed s = [] ∧ queue s = []
            ∧ procs s = replicate W Finished
            ∧ dequeued s = ((Some <$> keys) ++ replicate W None)%list
            ∧ dequeued_keys s = keys
            ∧ ∀ k, k ∈ keys → times_dequeued k s = 1%nat)).
Proof.
  intros HW Hall W.
  split; [done|]. split; [apply candidates_NoDup|]. split.
  - intros n s Hn. apply nsteps_remaining in Hn.
    rewrite remaining_start in Hn.
    unfold pool, Py.xrange_len in Hn. fold W in Hn. lia.
  - intros s Hreach.
    pose proof (invariant_reachable _ _ _ _ _ _ Hreach) as Hinv.
    pose proof (dequeued_keys_prefix objects_filter args s Hinv) as Hprefix.
    pose proof (candidates_NoDup objects_filter args) as Hnodup.
    split.
    { intros k. unfold times_dequeued. apply count_NoDup.
      rewrite Hprefix in Hnodup. by apply NoDup_app in Hnodup as [? _]. }
    split; [by apply none_dead_reachable|].
    split; [by apply (can_finish guess_type keep args (remaining s))|].
    intros Hnf.
    destruct (complete_run_dequeues_all s HW Hall Hreach Hnf)
      as (Hf & Hq & Hp & Hd & Hkeys).
    repeat split; try done.
    intros k Hk. unfold times_dequeued. rewrite Hkeys.
    by apply count_NoDup.
Qed.

(** X7: on a bucket whose candidates are all settled a run changes no
    object and issues no copy, with or without [dryrun]. *)
Theorem settled_bucket_is_left_alone s :
  (∀ k, k ∈ keys → settled guess_type k objects) →
  rtc step s0 s →
  w_objects (world s) = objects
  ∧ List.filter is_copy (w_calls (world s)) = [].
Proof. apply settled_run_is_noop. Qed.

End RunMore.

(** X8: on a bucket that holds every candidate that is not a directory
    marker, running the tool again after a complete run with [dryrun]
    off, on the bucket as that run left it and with the same listing,
    issues no copy and changes no object. *)
Theorem rerun_issues_no_copy guess_type keep objects_filter args objects s1 s2 :
  dryrun args = false → (1 ≤ workers args)%Z →
  all_stored (candidates objects_filter args) objects →
  rtc (step guess_type keep args) (start objects_filter args objects) s1 →
  nf (step guess_type keep args) s1 →
  rtc (step guess_type keep args)
    (start objects_filter args (w_objects (world s1))) s2 →
  w_objects (world s2) = w_objects (world s1)
  ∧ List.filter is_copy (w_calls (world s2)) = [].
Proof.
  intros Hdry HW Hall Hreach Hnf Hagain.
  apply (settled_run_is_noop guess_type keep objects_filter args
           (w_objects (world s1)) s2); [|done].
  intros k Hk.
  by apply (complete_run_settles guess_type keep objects_filter args objects).
Qed.

(** * More on the queue and the pool *)

Lemma finished_lookup ps i :
  ps !! i = Some Finished → (0 < finished ps)%nat.
Proof.
  revert i. induction ps as [|p ps IH]; intros [|i] Hi; simpl in *; try done.
  - injection Hi as ->. unfold finished. simpl. lia.
  - apply IH in Hi. unfold finished in *. simpl. destruct p; simpl; lia.
Qed.

(** A prefix of the items that holds a stop signal holds every key. *)
Lemma prefix_with_stop (c : list string) (l1 l2 r : list (option string)) :
  (l1 ++ l2 = (Some <$> c) ++ r)%list → (0 < stops l1)%nat →
  ∃ r1, l1 = ((Some <$> c) ++ r1)%list.
Proof.
  revert l1. induction c as [|k c IH]; intros l1 Heq Hstop.
  - by exists l1.
  - destruct l1 as [|x l1]; [unfold stops in Hstop; simpl in Hstop; lia|].
    simpl in Heq. injection Heq as -> Heq.
    destruct (IH l1 Heq) as [r1 ->]; [done|]. by exists r1.
Qed.

Section PoolFacts.

Variable guess_type : string → option string.
Variable keep : bool.
Variable objects_filter : string → list string.
Variable args : Args.
Variable objects : gmap string S3Object.

Abbreviation step := (step guess_type keep args).
Abbreviation s0 := (start objects_filter args objects).
Abbreviation keys := (candidates objects_filter args).

(** X9: the queue is first in, first out for the run: what has been
    dequeued is always an initial part of what [main] puts, and as soon as
    one worker has returned from [check_headers], which it does on a stop
    signal only (a worker ended by an exception is dead, not finished),
    every candidate key has been dequeued and only stop signals are
    left. *)
Theorem no_worker_finishes_before_all_keys_are_dequeued s i :
  rtc step s0 s →
  procs s !! i = Some Finished →
  puts objects_filter args = (dequeued s ++ queue s ++ feed s)%list
  ∧ dequeued_keys s = keys
  ∧ keys_of (queue s ++ feed s) = [].
Proof.
  intros Hreach Hi.
  pose proof (invariant_reachable _ _ _ _ _ _ Hreach)
    as Hinv.
  pose proof (dequeued_keys_prefix objects_filter args s Hinv) as Hprefix.
  destruct Hinv as (Hitems & Hstops & Hlen).
  split; [done|].
  apply finished_lookup in Hi.
  destruct (prefix_with_stop keys (dequeued s) (queue s ++ feed s)
              (replicate (pool args) None)) as [r1 Hr1]; [done|lia|].
  unfold puts in Hitems. rewrite Hr1, <- app_assoc in Hitems.
  apply app_inv_head in Hitems.
  assert (Hnil : keys_of (r1 ++ queue s ++ feed s) = [])
    by (by rewrite Hitems, keys_of_stops).
  rewrite keys_of_app in Hnil. apply app_eq_nil in Hnil as [Hr Hq].
  split; [|done]. unfold dequeued_keys.
  by rewrite Hr1, keys_of_app, keys_of_some, Hr, app_nil_r.
Qed.

(** X10: with a worker count of zero or less no worker is started and no
    stop signal is put: in every state nothing has been dequeued and the
    world is as at the start, and once [main] has put everything the
    candidate keys all sit in the queue. *)
Theorem no_worker_no_work s :
  (workers args ≤ 0)%Z →
  rtc step s0 s →
  procs s = [] ∧ taken s = [] ∧ world s = world s0
  ∧ (nf step s → feed s = [] ∧ queue s = Some <$> keys).
Proof.
  intros HW Hreach.
  assert (Hpool : pool args = 0%nat) by (unfold pool, Py.xrange_len; lia).
  assert (Hidle : procs s = [] ∧ taken s = [] ∧ world s = world s0).
  { revert s Hreach. apply rtc_ind_r.
    - unfold start. simpl. by rewrite Hpool.
    - intros y z _ [[|i] Hstep] (Hp & Ht & Hw); simpl in Hstep.
      + apply put_step_inv in Hstep as (x & rest & _ & ->). done.
      + apply worker_step_inv in Hstep as (x & rest & Hi & _).
        by rewrite Hp in Hi. }
  destruct Hidle as (Hp & Ht & Hw). repeat split; try done.
  - destruct (feed s) as [|x rest] eqn:Hf; [done|]. exfalso. apply H.
    eexists. exists Coordinator. simpl. unfold put_step. by rewrite Hf.
  - pose proof (invariant_reachable _ _ _ _ _ _ Hreach)
      as (Hitems & _).
    assert (Hfeed : feed s = []).
    { destruct (feed s) as [|x rest] eqn:Hf; [done|]. exfalso. apply H.
      eexists. exists Coordinator. simpl. unfold put_step. by rewrite Hf. }
    unfold dequeued, puts in Hitems.
    rewrite Ht, Hfeed, Hpool in Hitems. simpl in Hitems.
    by rewrite !app_nil_r in Hitems.
Qed.

(** X11: with an empty list of prefixes nothing is listed: there is no
    candidate, and in every state of the run the bucket, both streams and
    the calls are as at the start. *)
Theorem no_prefix_nothing_done s :
  prefixes args = [] →
  rtc step s0 s →
  keys = [] ∧ dequeued_keys s = [] ∧ world s = world s0.
Proof.
  intros Hnone Hreach.
  assert (Hkeys : keys = []).
  { unfold candidates, find_matching_files, Enumerator.listed.
    rewrite Hnone. simpl. apply elements_empty. }
  pose proof (invariant_reachable _ _ _ _ _ _ Hreach) as Hinv.
  pose proof (dequeued_keys_prefix objects_filter args s Hinv) as Hprefix.
  rewrite Hkeys in Hprefix. symmetry in Hprefix.
  apply app_eq_nil in Hprefix as [Hd _].
  repeat split; try done.
  rewrite (world_is_visits guess_type keep objects_filter args objects s Hreach).
  by rewrite Hd.
Qed.

End PoolFacts.

(** * One worker alone, and the pool *)

Section OneWorker.

Variable guess_type : string → option string.
Variable keep : bool.
Variables vb dr : bool.

Abbreviation check_headers := (check_headers guess_type keep vb dr).
Abbreviation visits := (visits guess_type keep vb dr).



End OneWorker.

Lemma drained_is_stuck guess_type keep args s :
  feed s = [] → queue s = [] → nf (step guess_type keep args) s.
Proof.
  intros Hf Hq [s' [[|i] Hs']]; simpl in Hs'.
  - unfold put_step in Hs'. by rewrite Hf in Hs'.
  - apply worker_step_inv in Hs' as (x & rest & _ & Hq' & _). congruence.
Qed.


(** * More on the enumeration *)

(** X12: neither the order of the prefixes nor a prefix given twice
    changes the candidate set. *)
Theorem prefixes_order_and_repetition_do_not_matter
    objects_filter (ps1 ps2 : list string) :
  (∀ p, p ∈ ps1 ↔ p ∈ ps2) →
  find_matching_files objects_filter ps1
    = find_matching_files objects_filter ps2.
Proof.
  intros Hsame. apply set_eq. intros k.
  rewrite !find_matching_files_elem. split.
  - intros (p & Hp & Hk). exists p. split; [by apply Hsame|done].
  - intros (p & Hp & Hk). exists p. split; [by apply Hsame|done].
Qed.

(** X13: there are never more candidates than listed keys, and exactly
    as many when no key is listed twice. *)
Theorem candidates_are_no_more_than_listed objects_filter args :
  let listed := Enumerator.listed objects_filter (prefixes args) in
  let keys := candidates objects_filter args in
  (length keys ≤ length listed)%nat
  ∧ (length keys = length listed ↔ NoDup listed).
Proof.
  intros listed keys.
  assert (Hnodup : NoDup keys) by apply NoDup_elements.
  assert (Hsub : keys ⊆+ listed).
  { apply NoDup_submseteq; [done|]. intros k Hk. subst keys listed.
    unfold candidates in Hk. rewrite elem_of_elements in Hk.
    apply find_matching_files_elem in Hk as (p & Hp & Hk).
    unfold Enumerator.listed. apply list_elem_of_bind. eauto. }
  split; [by apply submseteq_length|]. split.
  - intros Hlen. apply submseteq_length_Permutation in Hsub; [|lia].
    by rewrite <- Hsub.
  - intros Hl. subst keys. unfold candidates, find_matching_files,
      Enumerator.set. rewrite set_as_union, (left_id_L ∅ (∪)).
    fold listed. by rewrite elements_list_to_set.
Qed.

(** * The further statements at concrete inputs *)

Lemma final_reachable :
  rtc (step Sample.guess_type false Sample.args)
    (start Sample.objects_filter Sample.args Sample.objects) Scenario.final.
Proof. apply run_reachable. Qed.

Lemma final_stuck : nf (step Sample.guess_type false Sample.args) Scenario.final.
Proof. apply drained_is_stuck; vm_compute; reflexivity. Qed.

Lemma sample_all_stored :
  all_stored (candidates Sample.objects_filter Sample.args) Sample.objects.
Proof.
  assert (Hkeys : ∀ k, k ∈ candidates Sample.objects_filter Sample.args ↔
                       k ∈ ["a.png"; "b.css"; "dir/"; "dir/report.txt";
                            "weird.unknownext"]).
  { intros k. unfold candidates. rewrite elem_of_elements.
    rewrite find_matching_files_elem. split.
    - intros (p & _ & Hk). unfold Sample.objects_filter in Hk.
      apply list_elem_of_In, filter_In in Hk as [Hk _].
      by apply list_elem_of_In.
    - intros Hk. exists "". split; [by left|].
      unfold Sample.objects_filter. apply list_elem_of_In, filter_In.
      split; [by apply list_elem_of_In|]. apply String.prefix_correct.
      by destruct k. }
  intros k Hk _. apply Hkeys in Hk.
  rewrite !elem_of_cons, elem_of_nil in Hk.
  destruct Hk as [->|[->|[->|[->|[->|[]]]]]]; vm_compute; eauto.
Qed.

Lemma match_is_left_alone_witness :
  w_objects Sample.w0 !! "b.css" = Some (Sample.obj "text/css")
  ∧ Py.endswith "b.css" "/" = false
  ∧ Sample.guess_type "b.css" = Some "text/css"
  ∧ "text/css" ≠ ""
  ∧ content_type (Sample.obj "text/css") = Some "text/css"
  ∧ w_objects (exec (process_key Sample.guess_type false true false "b.css")
                 Sample.w0) = Sample.objects
  ∧ w_stdout (exec (process_key Sample.guess_type false true false "b.css")
                Sample.w0) = ["b.css: Matches expected content type"].
Proof.
  assert (H1 : w_objects Sample.w0 !! "b.css" = Some (Sample.obj "text/css"))
    by (vm_compute; reflexivity).
  assert (H2 : Py.endswith "b.css" "/" = false) by (vm_compute; reflexivity).
  assert (H3 : Sample.guess_type "b.css" = Some "text/css")
    by (vm_compute; reflexivity).
  assert (H4 : "text/css" ≠ "") by discriminate.
  assert (H5 : content_type (Sample.obj "text/css") = Some "text/css")
    by reflexivity.
  repeat (split; [assumption|]).
  destruct (match_is_left_alone Sample.guess_type false true false "b.css"
              (Sample.obj "text/css") Sample.w0 "text/css" H1 H2 H3 H4 H5)
    as (Hobj & _ & Hout & _).
  split; [exact Hobj|exact Hout].
Defined.

Lemma run_writes_at_most_one_line_per_key_witness :
  rtc (step Sample.guess_type false Sample.args)
    (start Sample.objects_filter Sample.args Sample.objects) Scenario.final
  ∧ (length (w_stdout (world Scenario.final))
     + length (w_stderr (world Scenario.final)) ≤ 5)%nat.
Proof.
  split; [exact final_reachable|].
  destruct (run_writes_at_most_one_line_per_key Sample.guess_type false
              Sample.objects_filter Sample.args Sample.objects Scenario.final
              final_reachable) as [_ H].
  exact H.
Defined.

Lemma run_touches_only_dequeued_candidates_witness :
  rtc (step Sample.guess_type false Sample.args)
    (start Sample.objects_filter Sample.args Sample.objects) Scenario.final
  ∧ dom (w_objects (world Scenario.final)) = dom Sample.objects
  ∧ w_bucket (world Scenario.final) = "assets".
Proof.
  split; [exact final_reachable|].
  destruct (run_touches_only_dequeued_candidates Sample.guess_type false
              Sample.objects_filter Sample.args Sample.objects Scenario.final
              final_reachable) as (Hdom & Hb & _).
  split; [exact Hdom|exact Hb].
Defined.

Lemma every_call_is_on_a_candidate_witness :
  rtc (step Sample.guess_type false Sample.args)
    (start Sample.objects_filter Sample.args Sample.objects) Scenario.final
  ∧ (length (List.filter is_copy (w_calls (world Scenario.final)))
     ≤ length (dequeued_keys Scenario.final))%nat.
Proof.
  split; [exact final_reachable|].
  exact (proj2 (every_call_is_on_a_candidate Sample.guess_type false
                  Sample.objects_filter Sample.args Sample.objects
                  Scenario.final final_reachable)).
Defined.

Lemma complete_run_settles_every_candidate_witness :
  dryrun Sample.args = false
  ∧ rtc (step Sample.guess_type false Sample.args)
      (start Sample.objects_filter Sample.args Sample.objects) Scenario.final
  ∧ (1 ≤ workers Sample.args)%Z
  ∧ all_stored (candidates Sample.objects_filter Sample.args) Sample.objects
  ∧ nf (step Sample.guess_type false Sample.args) Scenario.final
  ∧ dequeued_keys Scenario.final
    = candidates Sample.objects_filter Sample.args
  ∧ ∀ k o, k ∈ candidates Sample.objects_filter Sample.args →
           w_objects (world Scenario.final) !! k = Some o →
           Py.endswith k "/" = false →
           Py.truthy (Sample.guess_type k) = true →
           content_type o = Some (Py.chars (Sample.guess_type k)).
Proof.
  assert (H1 : dryrun Sample.args = false) by reflexivity.
  assert (H2 : (1 ≤ workers Sample.args)%Z) by (vm_compute; discriminate).
  split; [exact H1|]. split; [exact final_reachable|]. split; [exact H2|].
  split; [exact sample_all_stored|]. split; [exact final_stuck|].
  exact (proj2 (complete_run_settles_every_candidate Sample.guess_type false
                  Sample.objects_filter Sample.args Sample.objects
                  Scenario.final H1 final_reachable)
           H2 sample_all_stored final_stuck).
Defined.

Lemma stored_keys_are_dequeued_once_and_workers_return_witness :
  (1 ≤ workers Sample.args)%Z
  ∧ all_stored (candidates Sample.objects_filter Sample.args) Sample.objects
  ∧ NoDup (candidates Sample.objects_filter Sample.args)
  ∧ (∀ n s,
       nsteps (step Sample.guess_type false Sample.args) n
         (start Sample.objects_filter Sample.args Sample.objects) s →
       (n ≤ 2 * (length (candidates Sample.objects_filter Sample.args)
                 + Z.to_nat (workers Sample.args)))%nat)
  ∧ procs Scenario.final = [Finished; Finished]
  ∧ dequeued_keys Scenario.final
    = candidates Sample.objects_filter Sample.args.
Proof.
  assert (H1 : (1 ≤ workers Sample.args)%Z) by (vm_compute; discriminate).
  split; [exact H1|]. split; [exact sample_all_stored|].
  destruct (stored_keys_are_dequeued_once_and_workers_return
              Sample.guess_type false Sample.objects_filter Sample.args
              Sample.objects H1 sample_all_stored)
    as (_ & Hnodup & Hbound & Hrun).
  split; [exact Hnodup|]. split; [exact Hbound|].
  destruct (Hrun Scenario.final final_reachable) as (_ & _ & _ & Hend).
  destruct (Hend final_stuck) as (_ & _ & Hprocs & _ & Hkeys & _).
  split; [exact Hprocs|exact Hkeys].
Defined.

Lemma tidy_settled k :
  k ∈ candidates Sample.objects_filter Sample.args →
  settled Sample.guess_type k Scenario.tidy.
Proof.
  intros _ o Hk _ _. unfold Scenario.tidy in Hk.
  apply lookup_singleton_Some in Hk as [<- <-]. vm_compute. reflexivity.
Qed.

Lemma settled_bucket_is_left_alone_witness :
  (∀ k, k ∈ candidates Sample.objects_filter Sample.args →
        settled Sample.guess_type k Scenario.tidy)
  ∧ rtc (step Sample.guess_type false Sample.args)
      (start Sample.objects_filter Sample.args Scenario.tidy)
      Scenario.tidy_run
  ∧ w_objects (world Scenario.tidy_run) = Scenario.tidy
  ∧ List.filter is_copy (w_calls (world Scenario.tidy_run)) = [].
Proof.
  split; [exact tidy_settled|].
  assert (Hreach : rtc (step Sample.guess_type false Sample.args)
                     (start Sample.objects_filter Sample.args Scenario.tidy)
                     Scenario.tidy_run) by apply run_reachable.
  split; [exact Hreach|].
  exact (settled_bucket_is_left_alone Sample.guess_type false
           Sample.objects_filter Sample.args Scenario.tidy Scenario.tidy_run
           tidy_settled Hreach).
Defined.

Lemma rerun_issues_no_copy_witness :
  dryrun Sample.args = false
  ∧ (1 ≤ workers Sample.args)%Z
  ∧ all_stored (candidates Sample.objects_filter Sample.args) Sample.objects
  ∧ rtc (step Sample.guess_type false Sample.args)
      (start Sample.objects_filter Sample.args Sample.objects) Scenario.final
  ∧ nf (step Sample.guess_type false Sample.args) Scenario.final
  ∧ rtc (step Sample.guess_type false Sample.args)
      (start Sample.objects_filter Sample.args
         (w_objects (world Scenario.final))) Scenario.again
  ∧ w_objects (world Scenario.again) = w_objects (world Scenario.final)
  ∧ List.filter is_copy (w_calls (world Scenario.again)) = [].
Proof.
  assert (H1 : dryrun Sample.args = false) by reflexivity.
  assert (H2 : (1 ≤ workers Sample.args)%Z) by (vm_compute; discriminate).
  assert (H3 : rtc (step Sample.guess_type false Sample.args)
                 (start Sample.objects_filter Sample.args
                    (w_objects (world Scenario.final))) Scenario.again)
    by apply run_reachable.
  split; [exact H1|]. split; [exact H2|]. split; [exact sample_all_stored|].
  split; [exact final_reachable|]. split; [exact final_stuck|].
  split; [exact H3|].
  exact (rerun_issues_no_copy Sample.guess_type false Sample.objects_filter
           Sample.args Sample.objects Scenario.final Scenario.again
           H1 H2 sample_all_stored final_reachable final_stuck H3).
Defined.

Lemma no_worker_finishes_before_all_keys_are_dequeued_witness :
  rtc (step Sample.guess_type false Sample.args)
    (start Sample.objects_filter Sample.args Sample.objects) Scenario.final
  ∧ procs Scenario.final !! 0%nat = Some Finished
  ∧ dequeued_keys Scenario.final
    = candidates Sample.objects_filter Sample.args.
Proof.
  assert (H1 : procs Scenario.final !! 0%nat = Some Finished)
    by (vm_compute; reflexivity).
  split; [exact final_reachable|]. split; [exact H1|].
  destruct (no_worker_finishes_before_all_keys_are_dequeued
              Sample.guess_type false Sample.objects_filter Sample.args
              Sample.objects Scenario.final 0%nat final_reachable H1)
    as (_ & H & _).
  exact H.
Defined.

Lemma no_worker_no_work_witness :
  (workers Scenario.idle_args ≤ 0)%Z
  ∧ rtc (step Sample.guess_type false Scenario.idle_args)
      (start Sample.objects_filter Scenario.idle_args Sample.objects)
      Scenario.idle
  ∧ taken Scenario.idle = []
  ∧ world Scenario.idle
    = world (start Sample.objects_filter Scenario.idle_args Sample.objects).
Proof.
  assert (H1 : (workers Scenario.idle_args ≤ 0)%Z) by (vm_compute; discriminate).
  assert (H2 : rtc (step Sample.guess_type false Scenario.idle_args)
                 (start Sample.objects_filter Scenario.idle_args
                    Sample.objects) Scenario.idle) by apply run_reachable.
  split; [exact H1|]. split; [exact H2|].
  destruct (no_worker_no_work Sample.guess_type false Sample.objects_filter
              Scenario.idle_args Sample.objects Scenario.idle H1 H2)
    as (_ & Ht & Hw & _).
  split; [exact Ht|exact Hw].
Defined.

Lemma no_prefix_nothing_done_witness :
  prefixes Scenario.no_prefix_args = []
  ∧ rtc (step Sample.guess_type false Scenario.no_prefix_args)
      (start Sample.objects_filter Scenario.no_prefix_args Sample.objects)
      Scenario.no_prefix
  ∧ world Scenario.no_prefix
    = world (start Sample.objects_filter Scenario.no_prefix_args
               Sample.objects).
Proof.
  assert (H1 : prefixes Scenario.no_prefix_args = []) by reflexivity.
  assert (H2 : rtc (step Sample.guess_type false Scenario.no_prefix_args)
                 (start Sample.objects_filter Scenario.no_prefix_args
                    Sample.objects) Scenario.no_prefix)
    by apply run_reachable.
  split; [exact H1|]. split; [exact H2|].
  destruct (no_prefix_nothing_done Sample.guess_type false
              Sample.objects_filter Scenario.no_prefix_args Sample.objects
              Scenario.no_prefix H1 H2) as (_ & _ & Hw).
  exact Hw.
Defined.


Lemma prefixes_order_and_repetition_do_not_matter_witness :
  (∀ p : string, p ∈ [""; "dir/"; ""] ↔ p ∈ ["dir/"; ""])
  ∧ find_matching_files Sample.objects_filter [""; "dir/"; ""]
    = find_matching_files Sample.objects_filter ["dir/"; ""].
Proof.
  assert (H1 : ∀ p : string, p ∈ [""; "dir/"; ""] ↔ p ∈ ["dir/"; ""]).
  { intros p. rewrite !elem_of_cons, elem_of_nil. tauto. }
  split; [exact H1|].
  exact (prefixes_order_and_repetition_do_not_matter Sample.objects_filter
           [""; "dir/"; ""] ["dir/"; ""] H1).
Defined.

Example scenario_final_bucket :
  content_type <$> (w_objects (world Scenario.final) !! "a.png")
    = Some (Some "image/png")
  ∧ content_type <$> (w_objects (world Scenario.final) !! "dir/report.txt")
    = Some (Some "text/plain")
  ∧ content_type <$> (w_objects (world Scenario.final) !! "weird.unknownext")
    = Some (Some "binary/octet-stream")
  ∧ length (List.filter is_copy (w_calls (world Scenario.final))) = 2%nat
  ∧ w_stderr (world Scenario.final)
    = ["weird.unknownext: Could not guess content type"].
Proof. vm_compute. done. Qed.
